(** * testfixtures.logcapture: a shallow embedding of [LogCapture]

    The development follows [src/testfixtures/logcapture.py]: Python values
    and log records, the attribute projection ([_actual_row], [actual]), the
    matchers ([check], [check_present]) and the install / uninstall protocol
    over the logging framework's registry of named loggers. *)

From stdpp Require Import gmap strings list fin_maps fin_sets.

#[local] Set Warnings "-clear-no-such-hyp".
Local Open Scope string_scope.
Local Open Scope list_scope.

(** ** Python values *)

(** The values a log record attribute, a row or a keyword argument may
    hold.  [VCallable i r] is the object of identity [i] that can be called
    with no argument and then returns [r] (a bound method such as
    [record.getMessage]). *)
#[local] Unset Elimination Schemes.
Inductive value : Type :=
| VNone
| VBool (b : bool)
| VInt (n : Z)
| VStr (s : string)
| VTuple (items : list value)
| VCallable (identity : nat) (result : value).
#[local] Set Elimination Schemes.

(** Python's [==] on these values: a boolean is the integer 1 or 0, tuples
    are equal when they have the same length and equal items, a callable
    is equal to itself only, and values of different kinds differ. *)
Fixpoint py_eq (x y : value) : bool :=
  match x, y with
  | VNone, VNone => true
  | VBool a, VBool b => Z.eqb (Z.b2z a) (Z.b2z b)
  | VBool a, VInt n => Z.eqb (Z.b2z a) n
  | VInt n, VBool b => Z.eqb n (Z.b2z b)
  | VInt n, VInt m => Z.eqb n m
  | VStr s, VStr t => String.eqb s t
  | VTuple xs, VTuple ys =>
      (fix items (l k : list value) {struct l} : bool :=
         match l, k with
         | [], [] => true
         | a :: l', b :: k' => py_eq a b && items l' k'
         | _, _ => false
         end) xs ys
  | VCallable i _, VCallable j _ => Nat.eqb i j
  | _, _ => false
  end.

(** [x == y] for two sequences of rows, whatever their types (a tuple of
    expected rows, a list of actual rows): same length, equal rows. *)
Fixpoint rows_eq (l k : list value) : bool :=
  match l, k with
  | [], [] => true
  | a :: l', b :: k' => py_eq a b && rows_eq l' k'
  | _, _ => false
  end.

(** [callable(value)] *)
Definition callable (v : value) : bool :=
  match v with VCallable _ _ => true | _ => false end.

(** [value()], for a value that is callable. *)
Definition call (v : value) : value :=
  match v with VCallable _ r => r | _ => v end.

(** Truth value of an object, as [if] and [not] test it. *)
Definition truthy (v : value) : bool :=
  match v with
  | VNone => false
  | VBool b => b
  | VInt n => negb (n =? 0)%Z
  | VStr s => negb (String.eqb s "")
  | VTuple items => match items with [] => false | _ :: _ => true end
  | VCallable _ _ => true
  end.

(** ** Log records and the session object *)

(** A [logging.LogRecord], seen through [getattr]: its attributes by name. *)
Definition LogRecord : Type := gmap string value.

(** [getattr(record, a, None)] *)
Definition getattr (record : LogRecord) (a : string) : value :=
  default VNone (record !! a).

(** The [attributes] parameter: a sequence of attribute names, or a callable
    that extracts a row from a record. *)
Inductive extraction : Type :=
| AttrNames (selectors : list string)
| AttrCallable (f : LogRecord → value).

(** Handlers are objects; they are told apart by identity. *)
Definition handler : Type := nat.

(** [self.old]: a [defaultdict(dict)] holding one dictionary per saved
    attribute, each keyed by the logger name as written in [names] (the
    source spells the fourth key ['progagate']). *)
Record SavedConfig : Type := mkSaved {
  old_levels : gmap (option string) Z;
  old_handlers : gmap (option string) (list handler);
  old_disabled : gmap (option string) bool;
  old_progagate : gmap (option string) bool
}.

Definition no_saved : SavedConfig := mkSaved ∅ ∅ ∅ ∅.

(** The instance attributes of a [LogCapture]. *)
Record LogCapture : Type := mkLogCapture {
  names : list (option string);
  level : Z;
  propagate : option bool;
  attributes : extraction;
  recursive_check : bool;
  old : SavedConfig;
  records : list LogRecord
}.

(** ** Projection of records to rows *)

(** [_actual_row]: the generator, as the list of the values it yields. *)
Fixpoint _actual_row (selectors : list string) (record : LogRecord) : list value :=
  match selectors with
  | [] => []
  | a :: rest =>
      let value := getattr record a in
      let value := if callable value then call value else value in
      value :: _actual_row rest record
  end.

(** One turn of the loop of [actual]: the row of [r] is appended. *)
Definition actual_step (attrs : extraction) (actual : list value) (r : LogRecord)
  : list value :=
  match attrs with
  | AttrCallable f => actual ++ [f r]
  | AttrNames selectors =>
      let result := _actual_row selectors r in
      if decide (length result = 1)
      then actual ++ [default VNone (result !! 0)]
      else actual ++ [VTuple result]
  end.

(** [LogCapture.actual] *)
Definition actual (self : LogCapture) : list value :=
  foldl (actual_step (attributes self)) [] (records self).

(** ** Exceptions and results *)

(** What a call may raise.  [MismatchError] is the comparison service's
    error and carries the two sequences it was given and its [recursive]
    flag; [EntriesNotAsExpected] is the [AssertionError] that the unordered
    [check_present] builds from its three lists (each rendered by [pformat]
    in the source); [KeyError] is a failed dictionary subscription. *)
Inductive exn : Type :=
| MismatchError (expected actual : list value) (recursive : bool)
| AssertionError (message : string)
| EntriesNotAsExpected (found not_found other : list value)
| KeyError (key : option string).

Inductive result (A : Type) : Type :=
| Returns (a : A)
| Raises (e : exn).
Arguments Returns {A} a.
Arguments Raises {A} e.

(** Modelled from the spec: [testfixtures.comparison.compare], the
    comparison service, whose module [logcapture.py] only imports.  Given
    two sequences it returns when they agree in length, order and elements,
    the elements being compared by [==], and raises a mismatch error
    carrying both sequences otherwise.  With [recursive] set the elements
    are compared in depth; [==] on the values of this model descends into
    tuples already, so that the flag changes what the error reports, not
    whether it is raised. *)
Definition compare (expected actual : list value) (recursive : bool) : result unit :=
  if rows_eq expected actual then Returns tt
  else Raises (MismatchError expected actual recursive).

(** ** Matching *)

(** [l.index(entry)]: the first position holding a value equal to [entry];
    [None] stands for the [ValueError] of an absent entry. *)
Fixpoint index (entry : value) (l : list value) : option nat :=
  match l with
  | [] => None
  | x :: rest => if py_eq x entry then Some 0 else S <$> index entry rest
  end.

(** [l.index(entry, start)] *)
Definition index_from (l : list value) (entry : value) (start : nat) : option nat :=
  (λ i, start + i) <$> index entry (drop start l).

(** [l[-1]] of a list that is never empty where it is read. *)
Definition final (l : list nat) : nat := default 0 (last l).

(** [l.pop()] as the list that remains. *)
Definition pop_last {A : Type} (l : list A) : list A := removelast l.

(** The [for entry in expected] loop of the order-sensitive branch, on the
    state [(matched_indices, matched)].  [None] is the loop running to its
    end (the [else: return]); [Some] is the state at the [break]. *)
Fixpoint present_loop (actual expected : list value)
    (matched_indices : list nat) (matched : list value)
  : option (list nat * list value) :=
  match expected with
  | [] => None
  | entry :: rest =>
      match index_from actual entry (final matched_indices) with
      | None =>
          if decide (1 < length matched_indices)
          then Some (pop_last matched_indices, pop_last matched)
          else Some (matched_indices, matched)
      | Some index =>
          present_loop actual rest (matched_indices ++ [index + 1]) (matched ++ [entry])
      end
  end.

(** The branch [if order_matters:] of [check_present]. *)
Definition check_present_ordered (recursive : bool) (expected actual : list value)
  : result unit :=
  match present_loop actual expected [0] [] with
  | None => Returns tt
  | Some (matched_indices, matched) =>
      compare expected (matched ++ drop (final matched_indices) actual) recursive
  end.

(** The [for entry in actual] loop of the order-insensitive branch, on the
    state [(expected, matched, unmatched)]; [expected.pop(index)] removes
    the row at [index] and yields it, and the loop is left as soon as
    [expected] is empty after a turn. *)
Fixpoint pool_loop (actual expected matched unmatched : list value)
  : list value * list value * list value :=
  match actual with
  | [] => (expected, matched, unmatched)
  | entry :: rest =>
      let '(expected', matched', unmatched') :=
        match index entry expected with
        | None => (expected, matched, unmatched ++ [entry])
        | Some i => (delete i expected, matched ++ [default entry (expected !! i)], unmatched)
        end in
      if decide (expected' = []) then (expected', matched', unmatched')
      else pool_loop rest expected' matched' unmatched'
  end.

(** The branch [else:] of [check_present]. *)
Definition check_present_unordered (expected actual : list value) : result unit :=
  let '(expected', matched, unmatched) := pool_loop actual expected [] [] in
  if decide (expected' = []) then Returns tt
  else Raises (EntriesNotAsExpected matched expected' unmatched).

(** [LogCapture.check] *)
Definition check (self : LogCapture) (expected : list value) : result unit :=
  compare expected (actual self) (recursive_check self).

(** [LogCapture.check_present], with its keyword arguments as a dictionary. *)
Definition check_present (self : LogCapture) (expected : list value)
    (kw : gmap string value) : result unit :=
  let order_matters := default (VBool true) (kw !! "order_matters") in
  let kw := delete "order_matters" kw in
  if decide (kw = ∅) then
    let actual := actual self in
    if truthy order_matters
    then check_present_ordered (recursive_check self) expected actual
    else check_present_unordered expected actual
  else Raises (AssertionError "order_matters is the only keyword parameter").

(** ** The logging framework, as far as [LogCapture] touches it *)

(** The four attributes of a [logging.Logger] that are saved and restored. *)
Record Logger : Type := mkLogger {
  logger_level : Z;
  logger_handlers : list handler;
  logger_disabled : bool;
  logger_propagate : bool
}.

(** The framework's loggers: the root logger under the key [None], every
    other logger under its name.  [root_by_name] tells whether the
    framework answers the name of the root logger, ['root'], with the root
    logger itself, as it does from Python 3.9 on, or with a logger of its
    own that merely bears that name, as it did before. *)
Record Registry : Type := mkRegistry {
  root_by_name : bool;
  loggerDict : gmap (option string) Logger
}.

(** The logger that a name, as written, stands for: [getLogger] answers a
    name that is false ([None], the empty string) with the root logger. *)
Definition logger_key (reg : Registry) (name : option string) : option string :=
  match name with
  | None => None
  | Some n =>
      if decide (n = "") then None
      else if root_by_name reg && bool_decide (n = "root") then None
      else Some n
  end.

(** The logger that the framework creates when a logger is first asked
    for: level [NOTSET] ([WARNING] for the root logger), no handler,
    enabled, propagating. *)
Definition new_logger (key : option string) : Logger :=
  mkLogger (if key is None then 30%Z else 0%Z) [] false true.

(** [logging.getLogger(name)], a function of the logging framework: one
    logger per key, and a key that was never asked for answers with a new
    logger. *)
Definition getLogger (name : option string) (reg : Registry) : Logger :=
  default (new_logger (logger_key reg name)) (loggerDict reg !! logger_key reg name).

Definition setLevel (lvl : Z) (logger : Logger) : Logger :=
  mkLogger lvl (logger_handlers logger) (logger_disabled logger) (logger_propagate logger).

Definition set_handlers (hs : list handler) (logger : Logger) : Logger :=
  mkLogger (logger_level logger) hs (logger_disabled logger) (logger_propagate logger).

Definition set_disabled (b : bool) (logger : Logger) : Logger :=
  mkLogger (logger_level logger) (logger_handlers logger) b (logger_propagate logger).

Definition set_propagate (b : bool) (logger : Logger) : Logger :=
  mkLogger (logger_level logger) (logger_handlers logger) (logger_disabled logger) b.

(** ** The process state *)

(** The registry of loggers; the capture objects by address, those of the
    class [LogCaptureForDecorator] being listed in [decorators]; the class
    attribute [instances], a set that the subclass shares; the class
    attribute [atexit_setup] of [LogCapture] and, in
    [decorator_atexit_setup], whether [LogCaptureForDecorator] was given an
    attribute [atexit_setup] of its own (it is [True] then, and until then
    the subclass reads the attribute of [LogCapture]); [atexit_hooks]
    counts the calls of [atexit.register]. *)
Record World : Type := mkWorld {
  loggers : Registry;
  heap : gmap nat LogCapture;
  decorators : gset nat;
  instances : gset nat;
  atexit_setup : bool;
  decorator_atexit_setup : bool;
  atexit_hooks : nat
}.

Definition set_old (o : SavedConfig) (s : LogCapture) : LogCapture :=
  mkLogCapture (names s) (level s) (propagate s) (attributes s) (recursive_check s)
               o (records s).

Definition set_records (rs : list LogRecord) (s : LogCapture) : LogCapture :=
  mkLogCapture (names s) (level s) (propagate s) (attributes s) (recursive_check s)
               (old s) rs.

(** ** install and uninstall *)

(** An attribute write on the logger object that [name] stands for. *)
Definition update_logger (name : option string) (f : Logger → Logger)
    (reg : Registry) : Registry :=
  mkRegistry (root_by_name reg)
             (<[logger_key reg name := f (getLogger name reg)]> (loggerDict reg)).

(** The body of the loop of [install] for one [name]: the four attributes
    of the logger are saved into [self.old], then overwritten. *)
Definition install_name (self : nat) (lvl : Z) (prop : option bool)
    (st : SavedConfig * Registry) (name : option string)
  : SavedConfig * Registry :=
  let '(o, lg) := st in
  let logger := getLogger name lg in
  let o := mkSaved (<[name := logger_level logger]> (old_levels o))
                   (<[name := logger_handlers logger]> (old_handlers o))
                   (<[name := logger_disabled logger]> (old_disabled o))
                   (<[name := logger_propagate logger]> (old_progagate o)) in
  let lg := update_logger name (setLevel lvl) lg in
  let lg := update_logger name (set_handlers [self]) lg in
  let lg := update_logger name (set_disabled false) lg in
  let lg := match prop with
            | Some p => update_logger name (set_propagate p) lg
            | None => lg
            end in
  (o, lg).

(** [self.__class__.atexit_setup], read: the attribute of the subclass if
    it has one, that of [LogCapture] otherwise. *)
Definition class_atexit_setup (self : nat) (w : World) : bool :=
  if decide (self ∈ decorators w)
  then decorator_atexit_setup w || atexit_setup w
  else atexit_setup w.

(** [LogCapture.install], for the object [s] found at address [self].  The
    exit hook is registered, and the flag set on the class of the object,
    when that class does not show the flag yet. *)
Definition install_object (self : nat) (s : LogCapture) (w : World) : World :=
  let '(o, lg) := foldl (install_name self (level s) (propagate s))
                        (old s, loggers w) (names s) in
  let registered := class_atexit_setup self w in
  mkWorld lg
          (<[self := set_old o s]> (heap w))
          (decorators w)
          ({[self]} ∪ instances w)
          (if decide (self ∈ decorators w) then atexit_setup w
           else atexit_setup w || negb registered)
          (if decide (self ∈ decorators w)
           then decorator_atexit_setup w || negb registered
           else decorator_atexit_setup w)
          (if registered then atexit_hooks w else S (atexit_hooks w)).

(** [self.install()].  A reference always designates an object; at an
    address that holds none, the model leaves the world as it is. *)
Definition install (self : nat) (w : World) : World :=
  match heap w !! self with
  | Some s => install_object self s w
  | None => w
  end.

(** The body of the loop of [uninstall] for one [name].  Each subscription
    [self.old[...][name]] raises [KeyError] when the name was never saved,
    and the attributes written before that stay written. *)
Definition uninstall_name (o : SavedConfig) (lg : Registry)
    (name : option string) : Registry * option exn :=
  match old_levels o !! name with
  | None => (lg, Some (KeyError name))
  | Some lvl =>
  let lg := update_logger name (setLevel lvl) lg in
  match old_handlers o !! name with
  | None => (lg, Some (KeyError name))
  | Some hs =>
  let lg := update_logger name (set_handlers hs) lg in
  match old_disabled o !! name with
  | None => (lg, Some (KeyError name))
  | Some d =>
  let lg := update_logger name (set_disabled d) lg in
  match old_progagate o !! name with
  | None => (lg, Some (KeyError name))
  | Some p => (update_logger name (set_propagate p) lg, None)
  end end end end.

(** The loop [for name in self.names] of [uninstall]. *)
Fixpoint uninstall_names (o : SavedConfig) (lg : Registry)
    (ns : list (option string)) : Registry * option exn :=
  match ns with
  | [] => (lg, None)
  | name :: rest =>
      match uninstall_name o lg name with
      | (lg, None) => uninstall_names o lg rest
      | (lg, Some e) => (lg, Some e)
      end
  end.

Definition set_loggers (lg : Registry) (w : World) : World :=
  mkWorld lg (heap w) (decorators w) (instances w) (atexit_setup w)
          (decorator_atexit_setup w) (atexit_hooks w).

(** [LogCapture.uninstall], for the object [s] found at address [self]:
    the world after the call and the exception that ended it, if any. *)
Definition uninstall_object (self : nat) (s : LogCapture) (w : World)
  : World * option exn :=
  if decide (self ∈ instances w) then
    match uninstall_names (old s) (loggers w) (names s) with
    | (lg, Some e) => (set_loggers lg w, Some e)
    | (lg, None) =>
        (mkWorld lg (heap w) (decorators w) (instances w ∖ {[self]}) (atexit_setup w)
                 (decorator_atexit_setup w) (atexit_hooks w),
         None)
    end
  else (w, None).

(** [self.uninstall()] *)
Definition uninstall (self : nat) (w : World) : World * option exn :=
  match heap w !! self with
  | Some s => uninstall_object self s w
  | None => (w, None)
  end.

(** The loop of [uninstall_all] over [tuple(cls.instances)], the snapshot
    being given as the list [order] of its members. *)
Fixpoint uninstall_each (order : list nat) (w : World) : World * option exn :=
  match order with
  | [] => (w, None)
  | i :: rest =>
      match uninstall i w with
      | (w', None) => uninstall_each rest w'
      | (w', Some e) => (w', Some e)
      end
  end.

(** [LogCapture.uninstall_all], with the members of the set taken in the
    order of [elements]; the theorems below hold for every order. *)
Definition uninstall_all (w : World) : World * option exn :=
  uninstall_each (elements (instances w)) w.

(** ** The other methods that change the state *)

(** The [names] parameter of the constructor: a tuple of names, or a single
    name that the constructor wraps into a tuple. *)
Inductive names_arg : Type :=
| SingleName (name : option string)
| NameTuple (ns : list (option string)).

Definition names_of (a : names_arg) : list (option string) :=
  match a with
  | SingleName n => [n]
  | NameTuple ns => ns
  end.

(** The constructor, for an object of the class [LogCapture] or, with
    [sub], of the class [LogCaptureForDecorator]: the new object is placed
    at an unused address. *)
Definition construct (sub : bool) (a : names_arg) (inst : bool) (lvl : Z)
    (prop : option bool) (attrs : extraction) (rc : bool) (w : World) : nat * World :=
  let self := fresh (dom (heap w)) in
  let s := mkLogCapture (names_of a) lvl prop attrs rc no_saved [] in
  let w := mkWorld (loggers w) (<[self := s]> (heap w))
                   (if sub then {[self]} ∪ decorators w else decorators w ∖ {[self]})
                   (instances w) (atexit_setup w) (decorator_atexit_setup w)
                   (atexit_hooks w) in
  (self, if inst then install self w else w).

(** [LogCapture(names, install, level, propagate, attributes,
    recursive_check)] *)
Definition new_LogCapture (a : names_arg) (inst : bool) (lvl : Z)
    (prop : option bool) (attrs : extraction) (rc : bool) (w : World) : nat * World :=
  construct false a inst lvl prop attrs rc w.

Definition update_object (self : nat) (f : LogCapture → LogCapture) (w : World) : World :=
  mkWorld (loggers w) (alter f self (heap w)) (decorators w) (instances w)
          (atexit_setup w) (decorator_atexit_setup w) (atexit_hooks w).

(** [self.clear()] *)
Definition clear (self : nat) (w : World) : World :=
  update_object self (set_records []) w.

(** [self.emit(record)] *)
Definition emit (self : nat) (record : LogRecord) (w : World) : World :=
  update_object self (λ s, set_records (records s ++ [record]) s) w.

(** Any other code that reconfigures the logger a name stands for. *)
Definition configure (name : option string) (logger : Logger) (w : World) : World :=
  set_loggers (update_logger name (λ _, logger) (loggers w)) w.

(** The process at its start: no capture object, no logger asked for yet. *)
Definition initial_world : World :=
  mkWorld (mkRegistry false ∅) ∅ ∅ ∅ false false 0.

(** The same under a framework that answers ['root'] with the root
    logger. *)
Definition initial_world_39 : World :=
  mkWorld (mkRegistry true ∅) ∅ ∅ ∅ false false 0.

(** [LogCapture.__enter__] *)
Definition __enter__ (self : nat) (w : World) : nat * World := (self, w).

(** [LogCapture.__exit__]: whatever ended the block, the capture is
    uninstalled. *)
Definition __exit__ (self : nat) (w : World) : World * option exn :=
  uninstall self w.

Module LogCaptureForDecorator.

(** [LogCaptureForDecorator.install]: install, then clear, and the object
    itself is returned. *)
Definition install (self : nat) (w : World) : nat * World :=
  (self, clear self (install self w)).

End LogCaptureForDecorator.

(** The object that [log_capture] builds from its names and keyword
    arguments and hands, by its [install] and [uninstall], to [wrap]: an
    object of the class [LogCaptureForDecorator], not installed;
    [names or None] turns an empty tuple of names into the single name
    [None]. *)
Definition log_capture (ns : list (option string)) (lvl : Z) (prop : option bool)
    (attrs : extraction) (rc : bool) (w : World) : nat * World :=
  construct true (if decide (ns = []) then SingleName None else NameTuple ns)
            false lvl prop attrs rc w.

(** What a program may do to the state, one call at a time; [Configure] is
    any other code that reconfigures a logger. *)
Inductive step : World → World → Prop :=
| step_new a inst lvl prop attrs rc w :
    step w (new_LogCapture a inst lvl prop attrs rc w).2
| step_log_capture ns lvl prop attrs rc w :
    step w (log_capture ns lvl prop attrs rc w).2
| step_install self w :
    is_Some (heap w !! self) → step w (install self w)
| step_uninstall self w :
    is_Some (heap w !! self) → step w (uninstall self w).1
| step_uninstall_all order w :
    order ≡ₚ elements (instances w) → step w (uninstall_each order w).1
| step_clear self w : step w (clear self w)
| step_emit self record w : step w (emit self record w)
| step_configure name logger w : step w (configure name logger w).

(** The states a process can be in. *)
Definition reachable (w : World) : Prop :=
  rtc step initial_world w ∨ rtc step initial_world_39 w.

(** ** Notions used to state the properties *)

(** The value a selector stands for on a record: the attribute of that
    name, [None] when the record has none, and the result of the call when
    the attribute is callable. *)
Definition selected (record : LogRecord) (a : string) : value :=
  match record !! a with
  | Some (VCallable _ r) => r
  | Some v => v
  | None => VNone
  end.

(** The row that one turn of the loop of [actual] appends. *)
Definition project (attrs : extraction) (r : LogRecord) : value :=
  match attrs with
  | AttrCallable f => f r
  | AttrNames selectors =>
      let result := _actual_row selectors r in
      if decide (length result = 1) then default VNone (result !! 0)
      else VTuple result
  end.

(** The cursor reached when [rows] are matched one after the other, each at
    its first occurrence in [actual] from the cursor on; [None] when one of
    them does not occur there. *)
Fixpoint greedy (actual rows : list value) (cursor : nat) : option nat :=
  match rows with
  | [] => Some cursor
  | row :: rest =>
      match index_from actual row cursor with
      | Some i => greedy actual rest (i + 1)
      | None => None
      end
  end.

(** The expected rows occur in [actual] in their order, with or without
    gaps: some rows of [actual], taken in order, are equal to them one by
    one, equal being Python's [==]. *)
Definition occurs_in_order (expected actual : list value) : Prop :=
  ∃ found, found `sublist_of` actual ∧ Forall2 (λ a e, py_eq a e) found expected.

(** How many rows of [l] are equal to [x]. *)
Fixpoint count_eq (x : value) (l : list value) : nat :=
  match l with
  | [] => 0
  | y :: rest => (if py_eq y x then 1 else 0) + count_eq x rest
  end.

(** The row of [l] equal to [x] that has [n] rows equal to [x] before
    it. *)
Fixpoint nth_eq (n : nat) (x : value) (l : list value) : option value :=
  match l with
  | [] => None
  | y :: rest =>
      if py_eq y x
      then match n with 0 => Some y | S n' => nth_eq n' x rest end
      else nth_eq n x rest
  end.

(** The rows of [l], in their order, that find no partner in [quota] when
    every row of [quota] is paired with the earliest free row of [l] equal
    to it: a row stays when at least as many rows equal to it stand before
    it ([seen] holding the rows gone by) as [quota] has rows equal to
    it. *)
Fixpoint leftover (quota seen l : list value) : list value :=
  match l with
  | [] => []
  | x :: rest =>
      (if (count_eq x seen <? count_eq x quota)%nat then [] else [x])
      ++ leftover quota (x :: seen) rest
  end.

(** For each row of [l] in turn, the row of [pool] it is paired with, if
    any: the row of [pool] equal to it that has as many equal rows before
    it as there were equal rows of [l] gone by. *)
Fixpoint taken (pool seen l : list value) : list value :=
  match l with
  | [] => []
  | x :: rest =>
      match nth_eq (count_eq x seen) x pool with
      | Some e => [e]
      | None => []
      end ++ taken pool (x :: seen) rest
  end.

(** A logger as [install] leaves it: the capture level, the capturing
    object as only handler, enabled, and the propagation flag overridden
    when the object has an override. *)
Definition capture (self : nat) (lvl : Z) (prop : option bool) (logger : Logger)
  : Logger :=
  mkLogger lvl [self] false (default (logger_propagate logger) prop).

(** What [self.old] holds for a name, read as one logger configuration;
    [None] when one of the four dictionaries lacks the name. *)
Definition saved_logger (o : SavedConfig) (name : option string) : option Logger :=
  lvl ← old_levels o !! name;
  hs ← old_handlers o !! name;
  d ← old_disabled o !! name;
  p ← old_progagate o !! name;
  Some (mkLogger lvl hs d p).

(** The four assignments [self.old[...][name] = ...] of [install]. *)
Definition save (name : option string) (logger : Logger) (o : SavedConfig)
  : SavedConfig :=
  mkSaved (<[name := logger_level logger]> (old_levels o))
          (<[name := logger_handlers logger]> (old_handlers o))
          (<[name := logger_disabled logger]> (old_disabled o))
          (<[name := logger_propagate logger]> (old_progagate o)).

(** The names stand for loggers that differ two by two: no name is
    repeated, and no two names stand for the same logger. *)
Definition distinct_loggers (reg : Registry) (ns : list (option string)) : Prop :=
  NoDup (logger_key reg <$> ns).

(** The logger that [name] stands for is the logger of one of [ns]: the
    name is one of them, or another name of the logger of one of them. *)
Definition targeted (reg : Registry) (ns : list (option string))
    (name : option string) : Prop :=
  logger_key reg name ∈ logger_key reg <$> ns.

(** The logger that [name] stands for is the logger of none of [ns]. *)
Definition untargeted (reg : Registry) (ns : list (option string))
    (name : option string) : Prop :=
  logger_key reg name ∉ logger_key reg <$> ns.

(** Every member of [instances] is an object whose [old] has an entry for
    each of its names. *)
Definition ready (w : World) : Prop :=
  ∀ i, i ∈ instances w →
    ∃ s, heap w !! i = Some s ∧ ∀ n, n ∈ names s → is_Some (saved_logger (old s) n).

(** The capture at [self] is installed and is the object [s], its records
    apart. *)
Definition attached (self : nat) (s : LogCapture) (w : World) : Prop :=
  self ∈ instances w ∧
  ∃ s', heap w !! self = Some s' ∧ set_records [] s' = set_records [] s.

(** [self.emit] called once for each of [rs], in order. *)
Definition emit_all (self : nat) (rs : list LogRecord) (w : World) : World :=
  foldl (λ w r, emit self r w) w rs.

(** What a program may do between [install] and [uninstall] of the capture
    [self] without calling [install] or [uninstall] on it, and without
    [uninstall_all]. *)
Inductive body_step (self : nat) : World → World → Prop :=
| body_emit i record w : body_step self w (emit i record w)
| body_clear i w : body_step self w (clear i w)
| body_configure name logger w : body_step self w (configure name logger w)
| body_new a inst lvl prop attrs rc w :
    body_step self w (new_LogCapture a inst lvl prop attrs rc w).2
| body_log_capture ns lvl prop attrs rc w :
    body_step self w (log_capture ns lvl prop attrs rc w).2
| body_install i w : i ≠ self → body_step self w (install i w)
| body_uninstall i w : i ≠ self → body_step self w (uninstall i w).1.

(** The exit hook was registered once for each of the two classes that
    shows a flag of its own, and at least one class shows it as soon as a
    capture is installed. *)
Definition hooked (w : World) : Prop :=
  atexit_hooks w
  = Nat.b2n (atexit_setup w) + Nat.b2n (decorator_atexit_setup w) ∧
  (instances w ≠ ∅ → atexit_setup w || decorator_atexit_setup w = true).

(** ** Rendering and the exit hook *)

(** The line feed that the source writes [\n]. *)
Definition newline : string := String (Ascii.ascii_of_nat 10) EmptyString.

(** What building a text yields: the text, or the [TypeError] of a format
    string applied to the wrong number of arguments. *)
Inductive rendered : Type :=
| Text (text : string)
| TypeError.

(** ["%s %s\n  %s" % r], [str] being Python's [str()]: the three
    conversions need a tuple of exactly three values; any other tuple, and
    any value that is no tuple (it counts as one argument), is refused. *)
Definition format_row (str : value → string) (r : value) : rendered :=
  match r with
  | VTuple [a; b; c] =>
      Text (String.concat "" [str a; " "; str b; newline; "  "; str c])
  | _ => TypeError
  end.

(** The list comprehension of [__str__]; the first row that cannot be
    formatted ends it ([None]). *)
Fixpoint format_rows (str : value → string) (rows : list value)
  : option (list string) :=
  match rows with
  | [] => Some []
  | r :: rest =>
      match format_row str r with
      | TypeError => None
      | Text line => (λ lines, line :: lines) <$> format_rows str rest
      end
  end.

(** [LogCapture.__str__] *)
Definition __str__ (str : value → string) (self : LogCapture) : rendered :=
  if decide (records self = []) then Text "No logging captured"
  else match format_rows str (actual self) with
       | Some lines => Text (String.concat newline lines)
       | None => TypeError
       end.

(** [LogCapture.atexit]: the text handed to [warnings.warn], if any;
    [str_names] is Python's [str()] on the tuple of names, and the members
    of the set are taken in the order of [elements]. *)
Definition atexit (str_names : list (option string) → string) (w : World)
  : option string :=
  if decide (instances w = ∅) then None
  else Some (String.concat ""
         ["LogCapture instances not uninstalled by shutdown, loggers captured:";
          newline;
          String.concat newline
            ((λ i, str_names (default [] (names <$> heap w !! i)))
               <$> elements (instances w))]).

(** ** Sample data *)

Definition A : value := VStr "A".
Definition B : value := VStr "B".
Definition C : value := VStr "C".
Definition D : value := VStr "D".

(** A record as the framework builds it for [logger.info(message)]. *)
Definition info_record (logger_name message : string) : LogRecord :=
  {[ "name" := VStr logger_name;
     "levelname" := VStr "INFO";
     "msg" := VStr message;
     "getMessage" := VCallable 0 (VStr message) ]}.

Definition default_attributes : extraction :=
  AttrNames ["name"; "levelname"; "getMessage"].

(** A capture of the root logger with the default attributes that received
    one record. *)
Definition hello_capture : LogCapture :=
  mkLogCapture [None] 1 None default_attributes false no_saved
               [info_record "root" "hello"].

(** A capture that selects the message alone and received the messages
    A, B, C and D, in this order. *)
Definition abcd_capture : LogCapture :=
  mkLogCapture [None] 1 None (AttrNames ["msg"]) false no_saved
               [info_record "root" "A"; info_record "root" "B";
                info_record "root" "C"; info_record "root" "D"].

(** A capture with the default attributes that received nothing. *)
Definition empty_capture : LogCapture :=
  mkLogCapture [None] 1 None default_attributes false no_saved [].

(** A capture whose rows are built by a function of the record. *)
Definition message_length_capture : LogCapture :=
  mkLogCapture [None] 1 None
    (AttrCallable (λ r, match r !! "msg" with
                        | Some (VStr m) => VInt (Z.of_nat (String.length m))
                        | _ => VNone
                        end))
    false no_saved [info_record "root" "hello"; info_record "root" "hi"].

(** A capture whose rows are the attribute [flag] of the records, and that
    received one record whose flag is [True]. *)
Definition flag_capture : LogCapture :=
  mkLogCapture [None] 1 None (AttrNames ["flag"]) false no_saved
               [ {[ "flag" := VBool true ]} ].

(** A process that created one installed capture of the root logger. *)
Definition root_world : World :=
  (new_LogCapture (SingleName None) true 1 None default_attributes false
                  initial_world).2.

(** A process that created, without installing it, a capture whose tuple
    of names holds the same name twice. *)
Definition twice_world : World :=
  (new_LogCapture (NameTuple [Some "a"; Some "a"]) false 1 None default_attributes
                  false initial_world).2.

(** A process that created, without installing it, a capture whose two
    names, [None] and the empty string, both stand for the root logger. *)
Definition alias_world : World :=
  (new_LogCapture (NameTuple [None; Some ""]) false 1 None default_attributes
                  false initial_world).2.

(** A process that created, without installing it, a capture named by the
    empty string, which stands for the root logger. *)
Definition empty_name_world : World :=
  (new_LogCapture (SingleName (Some "")) false 1 None default_attributes false
                  initial_world).2.

(** A state no process reaches: the capture at address 0 is a member of
    [instances] although nothing was saved for its name. *)
Definition unsaved_world : World :=
  mkWorld (mkRegistry false ∅)
          {[ 0 := mkLogCapture [None] 1 None default_attributes false no_saved [] ]}
          ∅ {[ 0 ]} false false 0.

(** A process that created, without installing it, a capture of the
    loggers [a] and [b], the former having a handler of its own. *)
Definition two_names_world : World :=
  (new_LogCapture (NameTuple [Some "a"; Some "b"]) false 1 (Some false)
                  default_attributes false
                  (configure (Some "a") (mkLogger 20 [7] true true) initial_world)).2.

(** A process that created two captures without installing them: the one
    at address 0 names the loggers [a] and [b], the one at address 1 the
    logger [a]. *)
Definition nested_world : World :=
  (new_LogCapture (SingleName (Some "a")) false 1 None default_attributes false
     (new_LogCapture (NameTuple [Some "a"; Some "b"]) false 5 None default_attributes
        false initial_world).2).2.

(** A process that created, without installing them, the capture of a
    decorator at address 0 and a plain capture at address 1. *)
Definition two_classes_world : World :=
  (new_LogCapture (SingleName (Some "b")) false 1 None default_attributes false
     (log_capture [Some "a"] 1 None default_attributes false initial_world).2).2.

(** * Properties *)

(** ** Equality of values *)

Lemma value_ind' (P : value → Prop) :
  P VNone → (∀ b, P (VBool b)) → (∀ n, P (VInt n)) → (∀ s, P (VStr s)) →
  (∀ items, Forall P items → P (VTuple items)) →
  (∀ i r, P r → P (VCallable i r)) →
  ∀ v, P v.
Proof.
  intros HN HB HI HS HT HC. fix IH 1. intros [| b | n | s | items | i r].
  - exact HN.
  - apply HB.
  - apply HI.
  - apply HS.
  - apply HT. induction items as [|x items IHitems]; constructor; [apply IH | exact IHitems].
  - apply HC, IH.
Qed.

Lemma py_eq_tuple xs ys : py_eq (VTuple xs) (VTuple ys) = rows_eq xs ys.
Proof.
  revert ys. induction xs as [|x xs IH]; intros [|y ys]; simpl; [done..|].
  by f_equal.
Qed.

Lemma py_eq_refl v : py_eq v v = true.
Proof.
  induction v as [| b | n | s | items IH | i r _] using value_ind'; simpl.
  - done.
  - apply Z.eqb_refl.
  - apply Z.eqb_refl.
  - apply String.eqb_refl.
  - change (py_eq (VTuple items) (VTuple items) = true). rewrite py_eq_tuple.
    induction IH as [|x items Hx _ IH]; simpl; [done|]. by rewrite Hx, IH.
  - apply Nat.eqb_refl.
Qed.

Lemma py_eq_sym x y : py_eq x y = py_eq y x.
Proof.
  revert y. induction x as [| b | n | s | items IH | i r _] using value_ind';
    intros [| b' | n' | s' | items' | i' r']; simpl; try done.
  - apply Z.eqb_sym.
  - apply Z.eqb_sym.
  - apply Z.eqb_sym.
  - apply Z.eqb_sym.
  - apply String.eqb_sym.
  - change (py_eq (VTuple items) (VTuple items') = py_eq (VTuple items') (VTuple items)).
    rewrite !py_eq_tuple. revert items'.
    induction IH as [|x items Hx _ IH]; intros [|y items']; simpl; try done.
    by rewrite Hx, IH.
  - apply Nat.eqb_sym.
Qed.

Lemma py_eq_trans x y z : py_eq x y = true → py_eq y z = true → py_eq x z = true.
Proof.
  revert y z. induction x as [| b | n | s | items IH | i r _] using value_ind';
    intros [| b' | n' | s' | items' | i' r'] [| b'' | n'' | s'' | items'' | i'' r''];
    simpl; try done;
    rewrite ?Z.eqb_eq, ?String.eqb_eq, ?Nat.eqb_eq; try congruence.
  change (py_eq (VTuple items) (VTuple items') = true →
          py_eq (VTuple items') (VTuple items'') = true →
          py_eq (VTuple items) (VTuple items'') = true).
  rewrite !py_eq_tuple. revert items' items''.
  induction IH as [|x items Hx _ IH]; intros [|y items'] [|z items'']; simpl; try done.
  rewrite !andb_true_iff. intros [H1 H2] [H3 H4]. split; [by eapply Hx | by eapply IH].
Qed.

Lemma py_eq_left x y z : py_eq x y = true → py_eq x z = py_eq y z.
Proof.
  intros H. destruct (py_eq y z) eqn:E.
  - by eapply py_eq_trans.
  - destruct (py_eq x z) eqn:E'; [|done].
    rewrite <- E. symmetry. eapply py_eq_trans; [|exact E']. by rewrite py_eq_sym.
Qed.

Lemma py_eq_right x y z : py_eq x y = true → py_eq z x = py_eq z y.
Proof. intros H. rewrite !(py_eq_sym z). by apply py_eq_left. Qed.

Lemma rows_eq_Forall2 l k : rows_eq l k = true ↔ Forall2 (λ a e, py_eq a e) l k.
Proof.
  revert k. induction l as [|a l IH]; intros [|b k]; simpl.
  - split; [constructor | done].
  - split; [done | inversion 1].
  - split; [done | inversion 1].
  - rewrite andb_true_iff, IH. split.
    + intros [H1 H2]. constructor; [by rewrite H1 | done].
    + inversion 1 as [|? ? ? ? H1 H2]; subst. split; [by destruct (py_eq a b) | done].
Qed.

(** ** Projection *)

Section projection.
Implicit Types (record r : LogRecord) (selectors : list string) (attrs : extraction).

Lemma actual_row_selected selectors r :
  _actual_row selectors r = selected r <$> selectors.
Proof.
  induction selectors as [|a rest IH]; simpl; [done|].
  rewrite IH. f_equal. unfold getattr, selected.
  destruct (r !! a) as [v|]; [|done]. by destruct v.
Qed.

Lemma actual_step_project attrs acc r :
  actual_step attrs acc r = acc ++ [project attrs r].
Proof.
  unfold actual_step, project. destruct attrs as [selectors|f]; [|done].
  simpl. by destruct (decide (length (_actual_row selectors r) = 1)).
Qed.

Lemma foldl_actual_step attrs acc rs :
  foldl (actual_step attrs) acc rs = acc ++ (project attrs <$> rs).
Proof.
  revert acc. induction rs as [|r rs IH]; intros acc; simpl.
  - by rewrite app_nil_r.
  - by rewrite IH, actual_step_project, <- app_assoc.
Qed.

Lemma actual_project (self : LogCapture) :
  actual self = project (attributes self) <$> records self.
Proof. unfold actual. by rewrite foldl_actual_step. Qed.
End projection.

(** C5.  With a sequence of selectors, the values of a record are the
    selected attributes in selector order, each looked up on the record,
    [None] when missing and called when callable; with one selector
    [actual] yields for every buffered record, in buffer order, the bare
    value, and with two or more selectors the tuple of as many values. *)
Theorem actual_projects_selectors (self : LogCapture) (selectors : list string)
    (Hattrs : attributes self = AttrNames selectors) :
  (∀ r, _actual_row selectors r = selected r <$> selectors) ∧
  (∀ a, selectors = [a] → actual self = (λ r, selected r a) <$> records self) ∧
  (1 < length selectors →
     actual self = (λ r, VTuple (selected r <$> selectors)) <$> records self) ∧
  length (actual self) = length (records self).
Proof.
  rewrite actual_project, Hattrs. split_and!.
  - apply actual_row_selected.
  - intros a ->. apply list_fmap_ext. intros _ r _. unfold project.
    by rewrite actual_row_selected.
  - intros Hlen. apply list_fmap_ext. intros _ r _. unfold project.
    rewrite actual_row_selected.
    destruct (decide (length (selected r <$> selectors) = 1)) as [E|_]; [|done].
    rewrite length_fmap in E. lia.
  - by rewrite length_fmap.
Qed.

Lemma actual_projects_selectors_witness :
  actual hello_capture = [VTuple [VStr "root"; VStr "INFO"; VStr "hello"]] ∧
  actual abcd_capture = [A; B; C; D].
Proof.
  split.
  - exact (proj1 (proj2 (proj2
      (actual_projects_selectors hello_capture ["name"; "levelname"; "getMessage"]
         eq_refl))) ltac:(simpl; lia)).
  - exact (proj1 (proj2
      (actual_projects_selectors abcd_capture ["msg"] eq_refl)) "msg" eq_refl).
Defined.

(** ** The exact check *)

Lemma compare_differs expected actual rc :
  rows_eq expected actual = false →
  compare expected actual rc = Raises (MismatchError expected actual rc).
Proof. intros H. unfold compare. by rewrite H. Qed.

Lemma check_returns_iff self expected :
  check self expected = Returns tt ↔ rows_eq expected (actual self) = true.
Proof. unfold check, compare. by destruct (rows_eq expected (actual self)). Qed.

Lemma rows_eq_lookup l k :
  rows_eq l k = true
  ↔ length l = length k ∧
    ∀ i e a, l !! i = Some e → k !! i = Some a → py_eq e a = true.
Proof.
  revert k. induction l as [|x l IH]; intros [|y k]; simpl.
  - split; [|done]. intros _. split; [done|]. by intros i e a H.
  - split; [done | by intros [? _]].
  - split; [done | by intros [? _]].
  - rewrite andb_true_iff, IH. split.
    + intros [Hxy [Hlen Hall]]. split; [by rewrite Hlen|].
      intros [|i] e a; simpl; [congruence | apply Hall].
    + intros [Hlen Hall]. split_and!.
      * by apply (Hall 0).
      * congruence.
      * intros i e a. apply (Hall (S i)).
Qed.

(** C6.  [check] hands the expected rows, the projected records and the
    flag [recursive_check] to the comparison service, and nothing else
    decides its outcome.  It returns exactly when both sequences have the
    same length and, position by position, rows that are equal (so that a
    difference in length, in order or in a value makes it fail, the
    boolean [True] being the integer 1); otherwise the service's error is
    raised, carrying both sequences and the flag. *)
Theorem check_iff_equal (self : LogCapture) (expected : list value) :
  check self expected = compare expected (actual self) (recursive_check self) ∧
  (check self expected = Returns tt
   ↔ length expected = length (actual self) ∧
     ∀ i e a, expected !! i = Some e → actual self !! i = Some a → py_eq e a = true) ∧
  (check self expected = Returns tt ∨
   check self expected
   = Raises (MismatchError expected (actual self) (recursive_check self))) ∧
  check flag_capture [VInt 1] = Returns tt ∧
  check abcd_capture [A; B; D; C]
  = Raises (MismatchError [A; B; D; C] [A; B; C; D] false).
Proof.
  split_and!.
  - done.
  - by rewrite check_returns_iff, rows_eq_lookup.
  - unfold check, compare. destruct (rows_eq expected (actual self)); [by left | by right].
  - by vm_compute.
  - by vm_compute.
Qed.

(** ** Keyword arguments of [check_present] *)

(** C9.  A keyword argument other than [order_matters] makes
    [check_present] raise its usage assertion, and without any keyword
    argument the call behaves as with [order_matters=True]: the
    order-sensitive branch runs. *)
Theorem check_present_keywords (self : LogCapture) (expected : list value)
    (kw : gmap string value) (k : string) (v : value)
    (Hother : k ≠ "order_matters") (Hkw : kw !! k = Some v) :
  check_present self expected kw
  = Raises (AssertionError "order_matters is the only keyword parameter") ∧
  check_present self expected ∅
  = check_present self expected {[ "order_matters" := VBool true ]} ∧
  check_present self expected ∅
  = check_present_ordered (recursive_check self) expected (actual self).
Proof.
  split_and!.
  - unfold check_present.
    destruct (decide (delete "order_matters" kw = ∅)) as [E|_]; [|done].
    assert (delete "order_matters" kw !! k = Some v) as Hk
      by by rewrite lookup_delete_ne.
    rewrite E, lookup_empty in Hk. done.
  - unfold check_present. by rewrite delete_empty, delete_singleton_eq.
  - unfold check_present. by rewrite delete_empty.
Qed.

Lemma check_present_keywords_witness :
  check_present abcd_capture [A] {[ "strict" := VBool true ]}
  = Raises (AssertionError "order_matters is the only keyword parameter").
Proof.
  apply (check_present_keywords abcd_capture [A] {[ "strict" := VBool true ]}
           "strict" (VBool true)).
  - done.
  - reflexivity.
Defined.

Lemma check_iff_equal_witness : check flag_capture [VInt 1] = Returns tt.
Proof.
  exact (proj1 (proj2 (proj2 (proj2 (check_iff_equal flag_capture [VInt 1]))))).
Defined.

(** ** The order-sensitive present check *)

Section index_facts.
Implicit Types (l actual expected : list value) (e entry : value).

Lemma index_None e l : index e l = None ↔ ∀ x, x ∈ l → py_eq x e = false.
Proof.
  induction l as [|x l IH]; simpl.
  - split; [by intros _ y Hy%elem_of_nil | done].
  - destruct (py_eq x e) eqn:Hx.
    + split; [done|]. intros H. rewrite H in Hx; [done | left].
    + destruct (index e l) as [j|]; simpl.
      * split; [done|]. intros H.
        assert (Some j = None) as E by (apply IH; intros y Hy; apply H; by right).
        done.
      * split; [|done]. intros _ y [->|Hy]%elem_of_cons; [done | by apply IH].
Qed.

Lemma index_Some e l i :
  index e l = Some i →
  ∃ x, l = take i l ++ x :: drop (S i) l ∧ py_eq x e = true ∧
       ∀ y, y ∈ take i l → py_eq y e = false.
Proof.
  revert i. induction l as [|x l IH]; intros i; simpl; [done|].
  destruct (py_eq x e) eqn:Hx.
  - intros [= <-]. exists x. simpl. rewrite drop_0.
    split_and!; [done..|]. by intros y Hy%elem_of_nil.
  - destruct (index e l) as [j|] eqn:Hj; simpl; [|done].
    intros [= <-]. destruct (IH j eq_refl) as (z & Hl & Hz & Hpre).
    exists z. simpl. split_and!; [by rewrite <- Hl | done |].
    intros y [->|Hy]%elem_of_cons; [done | by apply Hpre].
Qed.

Lemma index_lookup e l i :
  index e l = Some i → ∃ x, l !! i = Some x ∧ py_eq x e = true.
Proof.
  intros H. destruct (index_Some _ _ _ H) as (x & Hl & Hx & _). exists x.
  split; [|done].
  assert (Hlen : i < length l).
  { apply Nat.nlt_ge. intros Hge. rewrite take_ge, drop_ge in Hl by lia.
    apply (f_equal length) in Hl. rewrite length_app in Hl. simpl in Hl. lia. }
  rewrite Hl. rewrite lookup_app_r; rewrite length_take; [|lia].
  by replace (i - i `min` length l) with 0 by lia.
Qed.

Lemma index_from_None l e c :
  index_from l e c = None ↔ ∀ x, x ∈ drop c l → py_eq x e = false.
Proof.
  unfold index_from. rewrite <- index_None.
  destruct (index e (drop c l)); simpl; naive_solver.
Qed.

Lemma index_from_Some l e c i :
  index_from l e c = Some i →
  ∃ pre x, drop c l = pre ++ x :: drop (S i) l ∧ py_eq x e = true ∧
           (∀ y, y ∈ pre → py_eq y e = false) ∧ i = c + length pre.
Proof.
  unfold index_from. destruct (index e (drop c l)) as [k|] eqn:Hk; simpl; [|done].
  intros [= <-]. destruct (index_Some _ _ _ Hk) as (x & Hd & Hx & Hpre).
  destruct (index_lookup _ _ _ Hk) as (x' & Hlk & _).
  apply lookup_lt_Some in Hlk.
  exists (take k (drop c l)), x. split_and!; [|done..|].
  - rewrite drop_drop in Hd. by replace (c + S k) with (S (c + k)) in Hd by lia.
  - rewrite length_take. lia.
Qed.

Lemma occurs_nil actual : occurs_in_order [] actual.
Proof. exists []. split; [apply sublist_nil_l | constructor]. Qed.

Lemma occurs_miss e rest l :
  (∀ x, x ∈ l → py_eq x e = false) → ¬ occurs_in_order (e :: rest) l.
Proof.
  intros Hmiss (found & Hsub & Hall).
  inversion Hall as [|f ? found' ? Hf _]; subst.
  rewrite (Hmiss f) in Hf; [done|]. eapply elem_of_sublist; [left | exact Hsub].
Qed.

Lemma occurs_first e rest pre x post :
  (∀ y, y ∈ pre → py_eq y e = false) → py_eq x e = true →
  occurs_in_order (e :: rest) (pre ++ x :: post) ↔ occurs_in_order rest post.
Proof.
  intros Hpre Hx. split.
  - intros (found & Hsub & Hall).
    inversion Hall as [|f ? found' ? Hf Hrest]; subst.
    exists found'. split; [|done].
    apply sublist_app_r in Hsub as (l1 & l2 & Heq & H1 & H2).
    destruct l1 as [|f1 l1].
    + simpl in Heq. subst l2. apply sublist_cons_r in H2 as [H2 | (l' & Hl' & H2)].
      * etrans; [|exact H2]. by apply sublist_cons.
      * by injection Hl' as _ ->.
    + injection Heq as <- _. rewrite (Hpre f) in Hf; [done|].
      eapply elem_of_sublist; [left | exact H1].
  - intros (found & Hsub & Hall). exists (x :: found). split.
    + by apply sublist_inserts_l, sublist_skip.
    + constructor; [by rewrite Hx | done].
Qed.

Lemma final_snoc mi c : final (mi ++ [c]) = c.
Proof. unfold final. by rewrite last_snoc. Qed.

(** The loop runs to its end exactly when the rows still expected occur,
    in order, in what is left of [actual] from the cursor on. *)
Lemma present_loop_None actual expected mi matched :
  present_loop actual expected mi matched = None
  ↔ occurs_in_order expected (drop (final mi) actual).
Proof.
  revert mi matched. induction expected as [|entry rest IH]; intros mi matched; simpl.
  - split; [intros _; apply occurs_nil | done].
  - destruct (index_from actual entry (final mi)) as [i|] eqn:Hi.
    + destruct (index_from_Some _ _ _ _ Hi) as (pre & x & Hd & Hx & Hpre & ->).
      rewrite IH, final_snoc, Hd, occurs_first by done.
      by replace (final mi + length pre + 1) with (S (final mi + length pre)) by lia.
    + rewrite index_from_None in Hi. split.
      * by destruct (decide (1 < length mi)).
      * intros H. by apply occurs_miss in H.
Qed.

Lemma greedy_snoc actual pre x c0 c :
  greedy actual (pre ++ [x]) c0 = Some c →
  ∃ c' i, greedy actual pre c0 = Some c' ∧ index_from actual x c' = Some i ∧ c = i + 1.
Proof.
  revert c0. induction pre as [|row pre IH]; intros c0; simpl.
  - destruct (index_from actual x c0) as [i|] eqn:Hi; [|done].
    intros [= <-]. by exists c0, i.
  - destruct (index_from actual row c0) as [i|]; [|done]. apply IH.
Qed.

Lemma greedy_occurs actual rows c0 c :
  greedy actual rows c0 = Some c →
  ∃ hits, Forall2 (λ a e, py_eq a e) hits rows ∧
          (hits ++ drop c actual) `sublist_of` drop c0 actual.
Proof.
  revert c0. induction rows as [|row rest IH]; intros c0; simpl.
  - intros [= <-]. exists []. split; [constructor | done].
  - destruct (index_from actual row c0) as [i|] eqn:Hi; [|done].
    destruct (index_from_Some _ _ _ _ Hi) as (pre & x & Hd & Hx & _ & ->).
    intros Hg. destruct (IH _ Hg) as (hits & Hall & Hsub).
    exists (x :: hits). split; [constructor; [by rewrite Hx | done]|].
    rewrite Hd. simpl. apply sublist_inserts_l, sublist_skip.
    by replace (S (c0 + length pre)) with (c0 + length pre + 1) by lia.
Qed.

Lemma present_loop_app actual pre rest mi matched c :
  greedy actual pre (final mi) = Some c →
  ∃ cs, length cs = length pre ∧ final (mi ++ cs) = c ∧
        present_loop actual (pre ++ rest) mi matched
        = present_loop actual rest (mi ++ cs) (matched ++ pre).
Proof.
  revert mi matched. induction pre as [|row pre IH]; intros mi matched; simpl.
  - intros [= <-]. exists []. by rewrite !app_nil_r.
  - destruct (index_from actual row (final mi)) as [i|] eqn:Hi; [|done].
    intros Hg. destruct (IH (mi ++ [i + 1]) (matched ++ [row])) as (cs & Hlen & Hfin & Heq).
    { by rewrite final_snoc. }
    exists ((i + 1) :: cs). simpl. split_and!.
    + by rewrite Hlen.
    + by rewrite <- Hfin, <- app_assoc.
    + by rewrite Heq, <- !app_assoc.
Qed.

Lemma Forall2_py_eq_refl l : Forall2 (λ a e : value, py_eq a e) l l.
Proof. induction l; constructor; [by rewrite py_eq_refl | done]. Qed.

Lemma Forall2_py_eq_sym l k :
  Forall2 (λ a e : value, py_eq a e) l k → Forall2 (λ a e : value, py_eq a e) k l.
Proof. induction 1; constructor; [by rewrite py_eq_sym | done]. Qed.

Lemma Forall2_py_eq_trans l k m :
  Forall2 (λ a e : value, py_eq a e) l k → Forall2 (λ a e : value, py_eq a e) k m →
  Forall2 (λ a e : value, py_eq a e) l m.
Proof.
  intros H. revert m. induction H as [|a b l k Hab _ IH]; intros m Hm.
  - by inversion Hm.
  - inversion Hm as [|? c ? m' Hbc Hm']; subst. constructor; [|by apply IH].
    apply Is_true_true. apply (py_eq_trans a b c); by apply Is_true_true.
Qed.

(** What the loop does when the rows [pre] are matched and [entry] is then
    missed. *)
Lemma ordered_miss rc actual pre entry post c
    (Hpre : greedy actual pre 0 = Some c)
    (Hmiss : index_from actual entry c = None) :
  ∃ c', greedy actual (removelast pre) 0 = Some c' ∧
        check_present_ordered rc (pre ++ entry :: post) actual
        = compare (pre ++ entry :: post) (removelast pre ++ drop c' actual) rc ∧
        rows_eq (pre ++ entry :: post) (removelast pre ++ drop c' actual) = false.
Proof.
  assert (Hnot : ¬ occurs_in_order (pre ++ entry :: post) actual).
  { intros Hs. apply (present_loop_None actual _ [0] []) in Hs.
    destruct (present_loop_app actual pre (entry :: post) [0] [] c Hpre)
      as (cs & _ & Hfin & Heq).
    rewrite Heq in Hs. cbn [present_loop] in Hs. rewrite Hfin, Hmiss in Hs.
    by destruct (decide (1 < length ([0] ++ cs))). }
  assert (∀ c', greedy actual (removelast pre) 0 = Some c' →
            rows_eq (pre ++ entry :: post) (removelast pre ++ drop c' actual) = false)
    as Hdiffer.
  { intros c' Hg.
    destruct (rows_eq (pre ++ entry :: post) (removelast pre ++ drop c' actual)) eqn:E;
      [|done].
    destruct Hnot. apply rows_eq_Forall2 in E.
    destruct (greedy_occurs actual (removelast pre) 0 c' Hg) as (hits & Hall & Hsub).
    rewrite drop_0 in Hsub. exists (hits ++ drop c' actual). split; [done|].
    eapply Forall2_py_eq_trans; [|apply Forall2_py_eq_sym, E].
    apply Forall2_app; [done | apply Forall2_py_eq_refl]. }
  destruct pre as [|x pre _] using rev_ind.
  - exists 0. split; [done|]. split; [|by apply Hdiffer].
    simpl in *. injection Hpre as <-.
    unfold check_present_ordered. simpl. change (final [0]) with 0.
    by rewrite Hmiss.
  - destruct (greedy_snoc _ _ _ _ _ Hpre) as (c' & i & Hg & Hi & ->).
    exists c'. rewrite removelast_last. split; [done|].
    split; [|rewrite removelast_last in Hdiffer; by apply Hdiffer].
    destruct (present_loop_app actual pre (x :: entry :: post) [0] [] c' Hg)
      as (cs & Hlen & Hfin & Heq).
    unfold check_present_ordered. rewrite <- app_assoc.
    change ([x] ++ entry :: post) with (x :: entry :: post). rewrite Heq.
    cbn [present_loop]. rewrite Hfin, Hi, final_snoc, Hmiss.
    destruct (decide (1 < length (([0] ++ cs) ++ [i + 1]))) as [_|Hlt].
    2:{ rewrite !length_app in Hlt. simpl in Hlt. lia. }
    unfold pop_last. by rewrite !removelast_last, Hfin.
Qed.

(** When the expected rows do not occur in order from the cursor on, the
    loop matches a prefix of them and then misses the next one. *)
Lemma miss_decomposition actual expected c0 :
  ¬ occurs_in_order expected (drop c0 actual) →
  ∃ pre entry post c,
    expected = pre ++ entry :: post ∧ greedy actual pre c0 = Some c ∧
    index_from actual entry c = None.
Proof.
  revert c0. induction expected as [|e rest IH]; intros c0 Hnot.
  - destruct Hnot. apply occurs_nil.
  - destruct (index_from actual e c0) as [i|] eqn:Hi.
    + destruct (index_from_Some _ _ _ _ Hi) as (p & x & Hd & Hx & Hp & ->).
      destruct (IH (c0 + length p + 1)) as (pre & entry & post & c & -> & Hg & Hm).
      { intros Hs. apply Hnot. rewrite Hd. apply occurs_first; [done..|].
        by replace (S (c0 + length p)) with (c0 + length p + 1) by lia. }
      exists (e :: pre), entry, post, c. simpl. by rewrite Hi.
    + by exists [], e, rest, c0.
Qed.

Lemma ordered_returns_iff rc expected actual :
  check_present_ordered rc expected actual = Returns tt
  ↔ occurs_in_order expected actual.
Proof.
  split.
  - intros Hret. destruct (present_loop actual expected [0] []) as [st|] eqn:Hloop.
    2:{ apply (present_loop_None actual expected [0] []) in Hloop.
        by rewrite drop_0 in Hloop. }
    exfalso. assert (¬ occurs_in_order expected actual) as Hnot.
    { intros Hs. rewrite <- (drop_0 actual) in Hs.
      apply (present_loop_None _ _ [0] []) in Hs. congruence. }
    destruct (miss_decomposition actual expected 0)
      as (pre & entry & post & c & -> & Hg & Hm); [by rewrite drop_0|].
    destruct (ordered_miss rc _ _ _ post _ Hg Hm) as (c' & _ & Hcmp & Hne).
    rewrite Hcmp, (compare_differs _ _ _ Hne) in Hret. done.
  - intros Hs. unfold check_present_ordered. rewrite <- (drop_0 actual) in Hs.
    apply (present_loop_None _ _ [0] []) in Hs. by rewrite Hs.
Qed.
End index_facts.

(** C1, as the code has it.  When the rows [pre] were matched greedily and
    the next expected row [entry] does not occur in [actual] from the
    cursor on, the loop is left at once, without a second search: the most
    recent match, if any, is dropped, and the comparison service is handed
    [expected] against the rows matched before it followed by the rows of
    [actual] from the cursor that preceded it; that comparison raises. *)
Theorem present_stops_at_first_miss (rc : bool) (actual pre : list value)
    (entry : value) (post : list value) (c : nat)
    (Hpre : greedy actual pre 0 = Some c)
    (Hmiss : index_from actual entry c = None) :
  ∃ c', greedy actual (removelast pre) 0 = Some c' ∧
        check_present_ordered rc (pre ++ entry :: post) actual
        = compare (pre ++ entry :: post) (removelast pre ++ drop c' actual) rc ∧
        check_present_ordered rc (pre ++ entry :: post) actual
        = Raises (MismatchError (pre ++ entry :: post)
                                (removelast pre ++ drop c' actual) rc).
Proof.
  destruct (ordered_miss rc actual pre entry post c Hpre Hmiss) as (c' & Hg & Hc & Hne).
  exists c'. split_and!; [done..|].
  rewrite Hc. by apply compare_differs.
Qed.

Lemma present_stops_at_first_miss_witness :
  ∃ c', greedy [A; B; C; D] (removelast [A; C]) 0 = Some c' ∧
        check_present_ordered false ([A; C] ++ B :: [D]) [A; B; C; D]
        = compare ([A; C] ++ B :: [D]) (removelast [A; C] ++ drop c' [A; B; C; D]) false ∧
        check_present_ordered false ([A; C] ++ B :: [D]) [A; B; C; D]
        = Raises (MismatchError ([A; C] ++ B :: [D])
                                (removelast [A; C] ++ drop c' [A; B; C; D]) false).
Proof.
  apply (present_stops_at_first_miss false [A; B; C; D] [A; C] B [D] 3).
  - reflexivity.
  - reflexivity.
Defined.

(** C1, as stated, fails: expected A, A against actual A.  The first A is
    matched at position 0 and the cursor is 1; the second A does not occur
    from 1 on.  With the match dropped the cursor is 0 again, one position
    earlier, and from there A does occur, so a second search would locate
    it; the code makes none and the check fails, comparing the expected
    rows with the whole of [actual]. *)
Lemma present_no_retry_counterexample :
  greedy [A] [A] 0 = Some 1 ∧
  index_from [A] A 1 = None ∧
  greedy [A] (removelast [A]) 0 = Some 0 ∧
  index_from [A] A 0 = Some 0 ∧
  check_present_ordered false [A; A] [A]
  = Raises (MismatchError [A; A] [A] false).
Proof. by vm_compute. Qed.

(** The same with two different rows: expected B, A against actual A, B.
    After B is matched, A is missed from cursor 2; a search from the cursor
    before that match, 0, would find A, and the check fails. *)
Example present_no_retry_wrong_order :
  greedy [A; B] [B] 0 = Some 2 ∧
  index_from [A; B] A 2 = None ∧
  index_from [A; B] A 0 = Some 0 ∧
  check_present_ordered false [B; A] [A; B]
  = Raises (MismatchError [B; A] [A; B] false).
Proof. by vm_compute. Qed.

(** C3.  The order-sensitive [check_present] returns whenever the expected
    rows occur in the projected records in order, with or without gaps and
    whatever follows them, a row occurring where a record's row is equal
    to it; it raises the comparison error when they do not.  A, C is
    found in A, B, C, D, and C, A is not; the integer 1 is found where the
    boolean [True] was logged. *)
Theorem check_present_ordered_subsequence :
  (∀ (self : LogCapture) (expected : list value),
     occurs_in_order expected (actual self) →
     check_present self expected ∅ = Returns tt) ∧
  (∀ (self : LogCapture) (expected : list value),
     expected `sublist_of` actual self →
     check_present self expected ∅ = Returns tt) ∧
  (∀ (self : LogCapture) (expected : list value),
     ¬ occurs_in_order expected (actual self) →
     ∃ shown, check_present self expected ∅
              = Raises (MismatchError expected shown (recursive_check self))) ∧
  check_present abcd_capture [A; C] ∅ = Returns tt ∧
  check_present abcd_capture [C; A] ∅
  = Raises (MismatchError [C; A] [A; B; C; D] false) ∧
  check_present flag_capture [VInt 1] ∅ = Returns tt.
Proof.
  assert (∀ self expected,
            check_present self expected ∅
            = check_present_ordered (recursive_check self) expected (actual self))
    as Hbranch.
  { intros self expected. unfold check_present. by rewrite delete_empty. }
  split_and!.
  - intros self expected Hs. rewrite Hbranch. by apply ordered_returns_iff.
  - intros self expected Hs. rewrite Hbranch. apply ordered_returns_iff.
    exists expected. split; [done | apply Forall2_py_eq_refl].
  - intros self expected Hs. rewrite Hbranch.
    destruct (miss_decomposition (actual self) expected 0)
      as (pre & entry & post & c & -> & Hg & Hm); [by rewrite drop_0|].
    destruct (ordered_miss (recursive_check self) _ _ _ post _ Hg Hm)
      as (c' & _ & -> & Hne).
    eexists. by apply compare_differs.
  - by vm_compute.
  - by vm_compute.
  - by vm_compute.
Qed.

Lemma check_present_ordered_subsequence_witness :
  check_present abcd_capture [B; D] ∅ = Returns tt.
Proof.
  apply (proj1 (proj2 check_present_ordered_subsequence) abcd_capture [B; D]).
  change (actual abcd_capture) with [A; B; C; D].
  apply sublist_cons, sublist_skip, sublist_cons, sublist_skip, sublist_nil.
Defined.

(** ** The order-insensitive present check *)

Local Open Scope nat_scope.

Section pool.
Implicit Types (l actual expected matched unmatched quota seen : list value)
  (e entry x a : value).

Lemma count_eq_py_eq x y l : py_eq x y = true → count_eq x l = count_eq y l.
Proof.
  intros H. induction l as [|z l IH]; simpl; [done|].
  by rewrite IH, (py_eq_right x y z H).
Qed.

Lemma count_eq_app x l k : count_eq x (l ++ k) = count_eq x l + count_eq x k.
Proof. induction l as [|y l IH]; simpl; [done|]. rewrite IH. lia. Qed.

Lemma count_eq_rev x l : count_eq x (rev l) = count_eq x l.
Proof.
  induction l as [|y l IH]; simpl; [done|].
  rewrite count_eq_app, IH. simpl. lia.
Qed.

Lemma count_eq_zero x l : count_eq x l = 0 ↔ ∀ y, y ∈ l → py_eq y x = false.
Proof.
  induction l as [|z l IH]; simpl.
  - split; [by intros _ y Hy%elem_of_nil | done].
  - destruct (py_eq z x) eqn:Hz; simpl.
    + split; [done|]. intros H. rewrite H in Hz; [done | left].
    + rewrite IH. split.
      * intros H y [->|Hy]%elem_of_cons; [done | by apply H].
      * intros H y Hy. apply H. by right.
Qed.

Lemma index_None_count e l : index e l = None ↔ count_eq e l = 0.
Proof. by rewrite index_None, count_eq_zero. Qed.

Lemma count_eq_delete x l i y :
  l !! i = Some y →
  count_eq x l = (if py_eq y x then 1 else 0) + count_eq x (delete i l).
Proof.
  revert i. induction l as [|z l IH]; intros [|i]; simpl; try done.
  - by intros [= ->].
  - intros H. rewrite (IH i H). lia.
Qed.

Lemma count_eq_Permutation x l k : l ≡ₚ k → count_eq x l = count_eq x k.
Proof. induction 1; simpl; lia. Qed.

Lemma count_eq_sublist x l k : l `sublist_of` k → count_eq x l ≤ count_eq x k.
Proof. induction 1; simpl; lia. Qed.

Lemma count_eq_Forall2 x l k :
  Forall2 (λ a e : value, py_eq a e) l k → count_eq x l = count_eq x k.
Proof.
  induction 1 as [|a b l k Hab _ IH]; simpl; [done|].
  apply Is_true_true in Hab. by rewrite IH, (py_eq_left a b x Hab).
Qed.

Lemma count_eq_pos x l : l ≠ [] → ∃ y, 0 < count_eq y l.
Proof.
  destruct l as [|y l]; [done|]. intros _. exists y. simpl. rewrite py_eq_refl. lia.
Qed.

(** The pool is emptied exactly when the records hold, for every row, at
    least as many rows equal to it as the pool does. *)
Lemma pool_loop_empty actual expected matched unmatched :
  (pool_loop actual expected matched unmatched).1.1 = []
  ↔ ∀ x, count_eq x expected ≤ count_eq x actual.
Proof.
  revert expected matched unmatched.
  induction actual as [|entry rest IH]; intros expected matched unmatched; simpl.
  - split; [by intros ->|]. intros H. destruct expected as [|y l]; [done|].
    specialize (H y). simpl in H. rewrite py_eq_refl in H. lia.
  - destruct (index entry expected) as [i|] eqn:Hi.
    + destruct (index_lookup _ _ _ Hi) as (y & Hy & Hye).
      assert (∀ x, count_eq x expected
                   = (if py_eq entry x then 1 else 0) + count_eq x (delete i expected))
        as Hcount.
      { intros x. rewrite (count_eq_delete x _ _ _ Hy). by rewrite (py_eq_left y entry x). }
      destruct (decide (delete i expected = [])) as [E|E]; simpl.
      * split; [intros _ | done]. intros x. rewrite Hcount, E. simpl. lia.
      * rewrite IH. split; intros H x; specialize (H x); rewrite Hcount in *; lia.
    + apply index_None_count in Hi.
      destruct (decide (expected = [])) as [->|E]; simpl.
      * split; [intros _ x; simpl; lia | done].
      * rewrite IH. split; intros H x; specialize (H x); [lia|].
        destruct (py_eq entry x) eqn:Hx; [|lia].
        rewrite <- (count_eq_py_eq entry x), Hi by done. lia.
Qed.

Lemma nth_eq_None n x l : nth_eq n x l = None ↔ count_eq x l ≤ n.
Proof.
  revert n. induction l as [|y l IH]; intros n; simpl.
  - split; [lia | done].
  - destruct (py_eq y x); simpl.
    + destruct n as [|n]; [split; [done | lia]|]. rewrite IH. lia.
    + apply IH.
Qed.

Lemma leftover_quota_ext quota quota' seen l :
  (∀ x, count_eq x quota = count_eq x quota') →
  leftover quota seen l = leftover quota' seen l.
Proof.
  intros H. revert seen. induction l as [|x l IH]; intros seen; simpl; [done|].
  by rewrite H, IH.
Qed.

(** One more row in the quota changes nothing when the rows equal to it
    are already all beyond the quota. *)
Lemma leftover_quota_full a quota seen l :
  count_eq a quota < count_eq a seen →
  leftover (a :: quota) seen l = leftover quota seen l.
Proof.
  revert seen. induction l as [|x l IH]; intros seen Hlt; simpl; [done|].
  rewrite IH by (simpl; lia). f_equal.
  destruct (py_eq a x) eqn:Hax; [|done]. simpl.
  rewrite <- !(count_eq_py_eq a x) by done.
  destruct (Nat.ltb_spec (count_eq a seen) (S (count_eq a quota)));
    destruct (Nat.ltb_spec (count_eq a seen) (count_eq a quota)); try lia; done.
Qed.

(** One more row [a] in the quota strikes out the first row equal to [a]
    that was left, which is the row with as many equal rows before it as
    the quota exceeds the rows gone by. *)
Lemma leftover_quota_step a quota seen l :
  count_eq a seen ≤ count_eq a quota →
  match index a (leftover quota seen l) with
  | Some i =>
      leftover (a :: quota) seen l = delete i (leftover quota seen l) ∧
      leftover quota seen l !! i = nth_eq (count_eq a quota - count_eq a seen) a l
  | None =>
      leftover (a :: quota) seen l = leftover quota seen l ∧
      nth_eq (count_eq a quota - count_eq a seen) a l = None
  end.
Proof.
  revert seen. induction l as [|x l IH]; intros seen Hle; simpl; [done|].
  destruct (py_eq x a) eqn:Hxa.
  - assert (py_eq a x = true) as Hax by by rewrite py_eq_sym.
    rewrite Hax. simpl. rewrite !(count_eq_py_eq x a) by done.
    destruct (Nat.ltb_spec (count_eq a seen) (count_eq a quota)) as [Hlt|Hge].
    + destruct (Nat.ltb_spec (count_eq a seen) (S (count_eq a quota))); [|lia].
      simpl. specialize (IH (x :: seen)). simpl in IH. rewrite Hxa in IH.
      replace (count_eq a quota - count_eq a seen)
        with (S (count_eq a quota - (1 + count_eq a seen))) by lia.
      apply IH. lia.
    + destruct (Nat.ltb_spec (count_eq a seen) (S (count_eq a quota))); [|lia].
      simpl. rewrite Hxa. replace (count_eq a quota - count_eq a seen) with 0 by lia.
      split; [|done]. apply leftover_quota_full. simpl. rewrite Hxa. lia.
  - assert (py_eq a x = false) as Hax by by rewrite py_eq_sym.
    rewrite Hax. simpl. specialize (IH (x :: seen)). simpl in IH. rewrite Hxa in IH.
    simpl in IH. specialize (IH Hle).
    destruct (count_eq x seen <? count_eq x quota)%nat; simpl; [exact IH|].
    rewrite Hxa. destruct (index a (leftover quota (x :: seen) l)) as [i|]; simpl.
    + destruct IH as [-> ->]. done.
    + destruct IH as [-> ->]. done.
Qed.

(** The state of the loop, as long as the pool is not empty: what is left
    of the pool, the rows taken from it, and the records that took none. *)
Lemma pool_loop_pinned expected rest seen matched unmatched :
  let '(pool', matched', unmatched') :=
    pool_loop rest (leftover seen [] expected) matched unmatched in
  pool' ≠ [] →
  pool' = leftover (rev rest ++ seen) [] expected ∧
  matched' = matched ++ taken expected seen rest ∧
  unmatched' = unmatched ++ leftover expected seen rest.
Proof.
  revert seen matched unmatched.
  induction rest as [|a rest IH]; intros seen matched unmatched; simpl.
  - intros _. by rewrite !app_nil_r.
  - pose proof (leftover_quota_step a seen [] expected) as Hstep.
    simpl in Hstep. rewrite Nat.sub_0_r in Hstep. specialize (Hstep ltac:(lia)).
    destruct (index a (leftover seen [] expected)) as [i|] eqn:Hi.
    + destruct Hstep as [Hdel Hnth].
      destruct (index_lookup _ _ _ Hi) as (y & Hy & _).
      rewrite Hy in Hnth. rewrite Hy. simpl.
      assert (count_eq a seen < count_eq a expected) as Hlt.
      { apply Nat.nle_gt. intros Hle. apply nth_eq_None in Hle. congruence. }
      destruct (decide (delete i (leftover seen [] expected) = [])) as [E|E]; [done|].
      rewrite <- Hdel. specialize (IH (a :: seen) (matched ++ [y]) unmatched).
      destruct (pool_loop rest (leftover (a :: seen) [] expected) (matched ++ [y])
                  unmatched) as [[p' m'] u'].
      intros Hne. destruct (IH Hne) as (-> & -> & ->).
      rewrite <- Hnth. destruct (Nat.ltb_spec (count_eq a seen) (count_eq a expected));
        [|lia].
      by rewrite <- !app_assoc.
    + destruct Hstep as [Hsame Hnth].
      assert (count_eq a expected ≤ count_eq a seen) as Hle by by apply nth_eq_None.
      destruct (decide (leftover seen [] expected = [])) as [E|E]; [done|].
      rewrite <- Hsame. specialize (IH (a :: seen) matched (unmatched ++ [a])).
      destruct (pool_loop rest (leftover (a :: seen) [] expected) matched
                  (unmatched ++ [a])) as [[p' m'] u'].
      intros Hne. destruct (IH Hne) as (-> & -> & ->).
      rewrite Hnth. destruct (Nat.ltb_spec (count_eq a seen) (count_eq a expected));
        [lia|].
      by rewrite <- !app_assoc.
Qed.

Lemma leftover_nothing_seen expected : leftover [] [] expected = expected.
Proof.
  generalize (@nil value) at 2. induction expected as [|x l IH]; intros seen; simpl;
    [done|].
  by rewrite IH.
Qed.

Lemma pool_loop_stops pre post expected matched unmatched :
  expected ≠ [] →
  (pool_loop pre expected matched unmatched).1.1 = [] →
  pool_loop (pre ++ post) expected matched unmatched
  = pool_loop pre expected matched unmatched.
Proof.
  revert expected matched unmatched.
  induction pre as [|entry rest IH]; intros expected matched unmatched Hne; simpl.
  - done.
  - destruct (index entry expected) as [i|].
    + destruct (decide (delete i expected = [])); [done|]. by apply IH.
    + destruct (decide (expected = [])); [done|]. by apply IH.
Qed.

Lemma unordered_returns_iff expected actual :
  check_present_unordered expected actual = Returns tt
  ↔ ∀ x, count_eq x expected ≤ count_eq x actual.
Proof.
  rewrite <- (pool_loop_empty actual expected [] []). unfold check_present_unordered.
  destruct (pool_loop actual expected [] []) as [[pool matched] unmatched]. simpl.
  by destruct (decide (pool = [])).
Qed.

(** The error of the order-insensitive check, when it raises one. *)
Lemma unordered_report expected actual :
  check_present_unordered expected actual = Returns tt ∨
  (check_present_unordered expected actual
   = Raises (EntriesNotAsExpected (taken expected [] actual)
                                  (leftover actual [] expected)
                                  (leftover expected [] actual)) ∧
   leftover actual [] expected ≠ []).
Proof.
  unfold check_present_unordered.
  pose proof (pool_loop_pinned expected actual [] [] []) as Hpin.
  rewrite leftover_nothing_seen in Hpin.
  destruct (pool_loop actual expected [] []) as [[pool matched] unmatched].
  destruct (decide (pool = [])) as [|Hne]; [by left|]. right.
  destruct (Hpin Hne) as (-> & -> & ->). rewrite app_nil_r in *.
  rewrite (leftover_quota_ext (rev actual) actual) in *
    by (intros x; apply count_eq_rev).
  done.
Qed.
End pool.

(** C4.  With a false [order_matters], [check_present] returns exactly
    when the projected records hold, for every row, at least as many rows
    equal to it as the expected rows do (the expected rows are a
    sub-multiset of the records).  Otherwise it raises the error made of
    three lists: the expected rows that were found, in the order of the
    records that found them, each record taking the first expected row
    equal to it that is still free; the expected rows that no record took,
    in their order, of which there is at least one; and the records that
    took none, in their order.  The scan ends as soon as the pool is
    empty: records after that point change nothing.  C, A is found in
    A, B, C, D, and of C, A, A the second A is not. *)
Theorem check_present_unordered_pool (self : LogCapture) (expected : list value)
    (flag : value) (Hflag : truthy flag = false) :
  (check_present self expected {[ "order_matters" := flag ]} = Returns tt
   ↔ ∀ x, count_eq x expected ≤ count_eq x (actual self)) ∧
  (expected ⊆+ actual self →
   check_present self expected {[ "order_matters" := flag ]} = Returns tt) ∧
  (check_present self expected {[ "order_matters" := flag ]} = Returns tt ∨
   (check_present self expected {[ "order_matters" := flag ]}
    = Raises (EntriesNotAsExpected (taken expected [] (actual self))
                                   (leftover (actual self) [] expected)
                                   (leftover expected [] (actual self))) ∧
    leftover (actual self) [] expected ≠ [])) ∧
  (∀ pre post pool, pool ≠ [] →
     (pool_loop pre pool [] []).1.1 = [] →
     pool_loop (pre ++ post) pool [] [] = pool_loop pre pool [] []) ∧
  check_present abcd_capture [C; A] {[ "order_matters" := flag ]} = Returns tt ∧
  check_present abcd_capture [C; A; A] {[ "order_matters" := flag ]}
  = Raises (EntriesNotAsExpected [A; C] [A] [B; D]).
Proof.
  assert (∀ s e, check_present s e {[ "order_matters" := flag ]}
                 = check_present_unordered e (actual s)) as Hbranch.
  { intros s e. unfold check_present.
    rewrite delete_singleton_eq, lookup_singleton_eq. simpl. rewrite Hflag.
    by destruct (decide (∅ = ∅)). }
  rewrite !Hbranch. split_and!.
  - apply unordered_returns_iff.
  - intros Hsub. apply unordered_returns_iff. intros x.
    apply submseteq_sublist_r in Hsub as (k & Hperm & Hk).
    rewrite (count_eq_Permutation x _ _ Hperm). by apply count_eq_sublist.
  - apply unordered_report.
  - intros pre post pool' Hne Hp. by apply pool_loop_stops.
  - by vm_compute.
  - by vm_compute.
Qed.

Lemma check_present_unordered_pool_witness :
  (check_present abcd_capture [D; B; B] {[ "order_matters" := VBool false ]} = Returns tt
   ↔ ∀ x, count_eq x [D; B; B] ≤ count_eq x (actual abcd_capture)) ∧
  check_present abcd_capture [C; A] {[ "order_matters" := VBool false ]} = Returns tt.
Proof.
  pose proof (check_present_unordered_pool abcd_capture [D; B; B] (VBool false) eq_refl)
    as (H1 & _ & _ & _ & H2 & _).
  exact (conj H1 H2).
Defined.

(** ** Saving and restoring loggers *)

Section registry.
Implicit Types (lg : Registry) (o : SavedConfig)
  (n m name : option string) (ns : list (option string)).

Lemma logger_key_flag lg lg' n :
  root_by_name lg' = root_by_name lg → logger_key lg' n = logger_key lg n.
Proof. unfold logger_key. by intros ->. Qed.

Lemma logger_keys_flag lg lg' ns :
  root_by_name lg' = root_by_name lg → logger_key lg' <$> ns = logger_key lg <$> ns.
Proof. intros H. apply list_fmap_ext. intros _ n _. by apply logger_key_flag. Qed.

Lemma getLogger_key n m lg :
  logger_key lg n = logger_key lg m → getLogger n lg = getLogger m lg.
Proof. unfold getLogger. by intros ->. Qed.

Lemma getLogger_update_eq n m f lg :
  logger_key lg m = logger_key lg n →
  getLogger m (update_logger n f lg) = f (getLogger n lg).
Proof.
  intros H. unfold getLogger at 1.
  change (logger_key (update_logger n f lg) m) with (logger_key lg m).
  unfold update_logger. cbn [loggerDict]. by rewrite H, lookup_insert_eq.
Qed.

Lemma getLogger_update_ne n m f lg :
  logger_key lg m ≠ logger_key lg n →
  getLogger m (update_logger n f lg) = getLogger m lg.
Proof.
  intros H. unfold getLogger.
  change (logger_key (update_logger n f lg) m) with (logger_key lg m).
  unfold update_logger. cbn [loggerDict]. by rewrite lookup_insert_ne.
Qed.

Lemma update_logger_twice n f g lg :
  update_logger n f (update_logger n g lg) = update_logger n (f ∘ g) lg.
Proof.
  unfold update_logger at 1. rewrite getLogger_update_eq by done.
  change (logger_key (update_logger n g lg) n) with (logger_key lg n).
  unfold update_logger. cbn [loggerDict root_by_name]. by rewrite insert_insert_eq.
Qed.

Lemma install_name_eq self lvl prop o lg n :
  install_name self lvl prop (o, lg) n
  = (save n (getLogger n lg) o, update_logger n (capture self lvl prop) lg).
Proof.
  unfold install_name, save. f_equal.
  destruct prop as [p|]; rewrite !update_logger_twice; unfold update_logger; done.
Qed.

Lemma saved_logger_save_eq n L o : saved_logger (save n L o) n = Some L.
Proof.
  unfold saved_logger, save. simpl. rewrite !lookup_insert_eq. simpl. by destruct L.
Qed.

Lemma saved_logger_save_ne n m L o :
  n ≠ m → saved_logger (save n L o) m = saved_logger o m.
Proof.
  intros H. unfold saved_logger, save. simpl. by rewrite !lookup_insert_ne.
Qed.

Lemma capture_capture self lvl prop L :
  capture self lvl prop (capture self lvl prop L) = capture self lvl prop L.
Proof. unfold capture. simpl. by destruct prop. Qed.

Lemma uninstall_name_saved o lg n L :
  saved_logger o n = Some L →
  uninstall_name o lg n = (update_logger n (λ _, L) lg, None).
Proof.
  unfold saved_logger, uninstall_name.
  destruct (old_levels o !! n) as [lvl|]; [|done].
  destruct (old_handlers o !! n) as [hs|]; [|done].
  destruct (old_disabled o !! n) as [d|]; [|done].
  destruct (old_progagate o !! n) as [p|]; [|done].
  simpl. intros [= <-]. rewrite !update_logger_twice. unfold update_logger. done.
Qed.

Lemma uninstall_name_unsaved o lg n :
  saved_logger o n = None → (uninstall_name o lg n).2 = Some (KeyError n).
Proof.
  unfold saved_logger, uninstall_name.
  destruct (old_levels o !! n) as [lvl|]; [|done].
  destruct (old_handlers o !! n) as [hs|]; [|done].
  destruct (old_disabled o !! n) as [d|]; [|done].
  destruct (old_progagate o !! n) as [p|]; done.
Qed.

Lemma uninstall_name_flag o lg n :
  root_by_name (uninstall_name o lg n).1 = root_by_name lg.
Proof.
  unfold uninstall_name.
  destruct (old_levels o !! n) as [lvl|]; [|done].
  destruct (old_handlers o !! n) as [hs|]; [|done].
  destruct (old_disabled o !! n) as [d|]; [|done].
  destruct (old_progagate o !! n) as [p|]; done.
Qed.

Lemma uninstall_names_flag o ns lg :
  root_by_name (uninstall_names o lg ns).1 = root_by_name lg.
Proof.
  revert lg. induction ns as [|x ns IH]; intros lg; simpl; [done|].
  pose proof (uninstall_name_flag o lg x) as Hx.
  destruct (uninstall_name o lg x) as [lg1 [e|]]; [done|].
  by rewrite IH.
Qed.

Lemma distinct_loggers_inj lg ns n m :
  distinct_loggers lg ns → n ∈ ns → m ∈ ns →
  logger_key lg n = logger_key lg m → n = m.
Proof.
  unfold distinct_loggers. induction ns as [|x ns IH]; [by intros _ H%elem_of_nil|].
  rewrite fmap_cons, NoDup_cons. intros [Hx Hnd] Hn Hm Hk.
  apply elem_of_cons in Hn as [->|Hn]; apply elem_of_cons in Hm as [->|Hm].
  - done.
  - destruct Hx. rewrite Hk. by apply list_elem_of_fmap_2.
  - destruct Hx. rewrite <- Hk. by apply list_elem_of_fmap_2.
  - by apply IH.
Qed.

Lemma distinct_loggers_flag lg lg' ns :
  root_by_name lg' = root_by_name lg → distinct_loggers lg ns → distinct_loggers lg' ns.
Proof. unfold distinct_loggers. intros H. by rewrite (logger_keys_flag lg lg'). Qed.

(** The loop of [uninstall] when an entry was saved for every name: a
    logger that one of the names stands for ends with an entry saved for
    one of its names, and the other loggers are as before. *)
Lemma uninstall_names_saved o ns lg :
  (∀ n, n ∈ ns → is_Some (saved_logger o n)) →
  ∃ lg', uninstall_names o lg ns = (lg', None) ∧
         root_by_name lg' = root_by_name lg ∧
         (∀ n, targeted lg ns n →
            ∃ m, m ∈ ns ∧ logger_key lg m = logger_key lg n ∧
                 saved_logger o m = Some (getLogger n lg')) ∧
         (∀ n, untargeted lg ns n → getLogger n lg' = getLogger n lg).
Proof.
  unfold targeted, untargeted.
  revert lg. induction ns as [|x ns IH]; intros lg Hall; simpl.
  - exists lg. split_and!; [done | done | by intros n H%elem_of_nil | done].
  - destruct (Hall x) as [L HL]; [left|].
    rewrite (uninstall_name_saved _ _ _ _ HL).
    destruct (IH (update_logger x (λ _, L) lg)) as (lg' & -> & Hflag & Hin & Hout).
    { intros n Hn. apply Hall. by right. }
    rewrite (logger_keys_flag lg (update_logger x (λ _, L) lg)) in Hin, Hout by done.
    exists lg'. split_and!; [done|done| |].
    + intros n Hn.
      destruct (decide (logger_key lg n ∈ logger_key lg <$> ns)) as [Hns|Hns].
      * destruct (Hin n Hns) as (m & Hm & Hk & Hs). exists m. split_and!; [by right|done..].
      * apply elem_of_cons in Hn as [Hk|Hn]; [|done].
        exists x. split_and!; [by left | done |].
        rewrite (Hout n Hns), getLogger_update_eq by done. done.
    + intros n [Hne Hn]%not_elem_of_cons.
      rewrite (Hout n Hn), getLogger_update_ne by done. done.
Qed.

Lemma uninstall_names_raises o ns lg e :
  (uninstall_names o lg ns).2 = Some e →
  ∃ n, e = KeyError n ∧ n ∈ ns ∧ saved_logger o n = None.
Proof.
  revert lg. induction ns as [|x ns IH]; intros lg; simpl; [done|].
  destruct (saved_logger o x) as [L|] eqn:HL.
  - rewrite (uninstall_name_saved _ _ _ _ HL). intros H.
    destruct (IH _ H) as (n & -> & Hn & Hs). exists n. split_and!; [done| by right |done].
  - pose proof (uninstall_name_unsaved o lg x HL) as Hx.
    destruct (uninstall_name o lg x) as [lg1 [e1|]]; [|done]. simpl in *.
    injection Hx as ->. intros [= <-]. exists x. split_and!; [done | by left | done].
Qed.

Lemma uninstall_names_ok_iff o ns lg :
  (uninstall_names o lg ns).2 = None ↔ ∀ n, n ∈ ns → is_Some (saved_logger o n).
Proof.
  revert lg. induction ns as [|x ns IH]; intros lg; simpl.
  - split; [by intros _ n Hn%elem_of_nil | done].
  - destruct (saved_logger o x) as [L|] eqn:HL.
    + rewrite (uninstall_name_saved _ _ _ _ HL), IH. split.
      * intros H n [->|Hn]%elem_of_cons; [by eexists | by apply H].
      * intros H n Hn. apply H. by right.
    + pose proof (uninstall_name_unsaved o lg x HL) as Hx.
      destruct (uninstall_name o lg x) as [lg1 [e1|]]; [|done]. simpl. split; [done|].
      intros H. destruct (H x) as [L HL']; [by left | congruence].
Qed.

(** The loop of [install] over the names [ns], from the saved dictionaries
    [o] and the registry [lg]: every logger that one of the names stands
    for is captured, and the entry saved for a name is what its logger had
    before the loop or, when an earlier name stands for the same logger,
    what the loop itself wrote. *)
Lemma install_names_spec self lvl prop o lg ns :
  ∃ o' lg', foldl (install_name self lvl prop) (o, lg) ns = (o', lg') ∧
    root_by_name lg' = root_by_name lg ∧
    (∀ n, targeted lg ns n →
       getLogger n lg' = capture self lvl prop (getLogger n lg)) ∧
    (∀ n, untargeted lg ns n → getLogger n lg' = getLogger n lg) ∧
    (∀ n, n ∈ ns →
       ∃ L, saved_logger o' n = Some L ∧
            (L = getLogger n lg ∨ L = capture self lvl prop (getLogger n lg)) ∧
            (distinct_loggers lg ns → L = getLogger n lg)) ∧
    (∀ n, n ∉ ns → saved_logger o' n = saved_logger o n).
Proof.
  unfold targeted, untargeted, distinct_loggers.
  induction ns as [|x ns IH] using rev_ind.
  - exists o, lg.
    split_and!; [done | done | by intros n H%elem_of_nil | done
                | by intros n H%elem_of_nil | done].
  - destruct IH as (o1 & lg1 & Hfold & Hflag & Hin & Hout & Hsaved & Hother).
    rewrite foldl_snoc, Hfold, install_name_eq.
    assert (∀ n, logger_key lg1 n = logger_key lg n) as Hkey.
    { intros n. by apply logger_key_flag. }
    eexists _, _. split; [done|]. split; [done|]. rewrite fmap_app. simpl.
    split_and!.
    + intros n Hn.
      destruct (decide (logger_key lg n = logger_key lg x)) as [Hk|Hk].
      * rewrite getLogger_update_eq by by rewrite !Hkey.
        rewrite (getLogger_key n x lg Hk).
        destruct (decide (logger_key lg x ∈ logger_key lg <$> ns)) as [Hx|Hx].
        -- by rewrite (Hin x Hx), capture_capture.
        -- by rewrite (Hout x Hx).
      * rewrite getLogger_update_ne by by rewrite !Hkey.
        apply Hin. apply elem_of_app in Hn as [?|Hn]; [done|].
        by apply list_elem_of_singleton in Hn.
    + intros n [Hns Hx]%not_elem_of_app. apply not_elem_of_cons in Hx as [Hne _].
      rewrite getLogger_update_ne by by rewrite !Hkey. by apply Hout.
    + intros n Hn. destruct (decide (n = x)) as [->|Hne].
      * rewrite saved_logger_save_eq. eexists. split; [done|].
        destruct (decide (logger_key lg x ∈ logger_key lg <$> ns)) as [Hx|Hx].
        -- rewrite (Hin x Hx). split; [by right|].
           intros Hnd. apply NoDup_app in Hnd as (_ & Hnd & _).
           destruct (Hnd _ Hx). left.
        -- rewrite (Hout x Hx). split; [by left | done].
      * assert (n ∈ ns) as Hns.
        { apply elem_of_app in Hn as [?|Hn]; [done|].
          apply list_elem_of_singleton in Hn. done. }
        rewrite saved_logger_save_ne by done.
        destruct (Hsaved n Hns) as (L & HL & Hor & Hnd).
        exists L. split_and!; [done..|].
        intros Hnd'. apply NoDup_app in Hnd' as (Hnd' & _). by apply Hnd.
    + intros n [Hns Hx]%not_elem_of_app. apply not_elem_of_cons in Hx as [Hne _].
      rewrite saved_logger_save_ne by done. by apply Hother.
Qed.
End registry.

(** ** The process state *)

Section world.
Implicit Types (w : World) (self i : nat) (s : LogCapture).

Lemma install_spec self s w :
  heap w !! self = Some s →
  ∃ o' lg',
    install self w
    = mkWorld lg' (<[self := set_old o' s]> (heap w)) (decorators w)
              ({[self]} ∪ instances w)
              (if decide (self ∈ decorators w) then atexit_setup w
               else atexit_setup w || negb (class_atexit_setup self w))
              (if decide (self ∈ decorators w)
               then decorator_atexit_setup w || negb (class_atexit_setup self w)
               else decorator_atexit_setup w)
              (if class_atexit_setup self w then atexit_hooks w
               else S (atexit_hooks w)) ∧
    root_by_name lg' = root_by_name (loggers w) ∧
    (∀ n, targeted (loggers w) (names s) n →
       getLogger n lg' = capture self (level s) (propagate s) (getLogger n (loggers w))) ∧
    (∀ n, untargeted (loggers w) (names s) n →
       getLogger n lg' = getLogger n (loggers w)) ∧
    (∀ n, n ∈ names s →
       ∃ L, saved_logger o' n = Some L ∧
            (L = getLogger n (loggers w)
             ∨ L = capture self (level s) (propagate s) (getLogger n (loggers w))) ∧
            (distinct_loggers (loggers w) (names s) → L = getLogger n (loggers w))) ∧
    (∀ n, n ∉ names s → saved_logger o' n = saved_logger (old s) n).
Proof.
  intros Hobj. unfold install, install_object. rewrite Hobj.
  destruct (install_names_spec self (level s) (propagate s) (old s) (loggers w) (names s))
    as (o' & lg' & -> & Hrest).
  by exists o', lg'.
Qed.

Lemma name_targeted lg (ns : list (option string)) n : n ∈ ns → targeted lg ns n.
Proof. intros H. by apply list_elem_of_fmap_2. Qed.

Lemma targeted_dec lg (ns : list (option string)) n :
  targeted lg ns n ∨ untargeted lg ns n.
Proof.
  unfold targeted, untargeted.
  destruct (decide (logger_key lg n ∈ logger_key lg <$> ns)); [by left | by right].
Qed.

Lemma targeted_flag lg lg' (ns : list (option string)) n :
  root_by_name lg' = root_by_name lg → targeted lg ns n → targeted lg' ns n.
Proof.
  unfold targeted. intros H.
  by rewrite (logger_keys_flag lg lg'), (logger_key_flag lg lg').
Qed.

Lemma untargeted_flag lg lg' (ns : list (option string)) n :
  root_by_name lg' = root_by_name lg → untargeted lg ns n → untargeted lg' ns n.
Proof.
  unfold untargeted. intros H.
  by rewrite (logger_keys_flag lg lg'), (logger_key_flag lg lg').
Qed.

Lemma uninstall_inactive self w : self ∉ instances w → uninstall self w = (w, None).
Proof.
  intros H. unfold uninstall, uninstall_object.
  destruct (heap w !! self); [|done]. by destruct (decide (self ∈ instances w)).
Qed.

Lemma uninstall_spec self s w :
  heap w !! self = Some s → self ∈ instances w →
  (∀ n, n ∈ names s → is_Some (saved_logger (old s) n)) →
  ∃ lg',
    uninstall self w
    = (mkWorld lg' (heap w) (decorators w) (instances w ∖ {[self]}) (atexit_setup w)
               (decorator_atexit_setup w) (atexit_hooks w),
       None) ∧
    root_by_name lg' = root_by_name (loggers w) ∧
    (∀ n, targeted (loggers w) (names s) n →
       ∃ m, m ∈ names s ∧ logger_key (loggers w) m = logger_key (loggers w) n ∧
            saved_logger (old s) m = Some (getLogger n lg')) ∧
    (∀ n, untargeted (loggers w) (names s) n →
       getLogger n lg' = getLogger n (loggers w)).
Proof.
  intros Hobj Hin Hsaved. unfold uninstall, uninstall_object. rewrite Hobj.
  destruct (decide (self ∈ instances w)); [|done].
  destruct (uninstall_names_saved (old s) (names s) (loggers w) Hsaved)
    as (lg' & -> & Hrest).
  by exists lg'.
Qed.

Lemma ready_uninstall self w :
  ready w →
  ∃ w', uninstall self w = (w', None) ∧ instances w' = instances w ∖ {[self]} ∧
        heap w' = heap w ∧ ready w'.
Proof.
  intros Hr. destruct (decide (self ∈ instances w)) as [Hin|Hin].
  - destruct (Hr self Hin) as (s & Hobj & Hsaved).
    destruct (uninstall_spec self s w Hobj Hin Hsaved) as (lg' & -> & _).
    eexists. split_and!; [done..|]. simpl.
    intros i Hi. apply Hr. set_solver.
  - exists w. rewrite uninstall_inactive by done. split_and!; [done| |done..].
    set_solver.
Qed.

Lemma ready_uninstall_each order w :
  ready w →
  ∃ w', uninstall_each order w = (w', None) ∧
        instances w' = instances w ∖ list_to_set order ∧
        heap w' = heap w ∧ ready w'.
Proof.
  revert w. induction order as [|i order IH]; intros w Hr; simpl.
  - exists w. split_and!; [done| |done..]. set_solver.
  - destruct (ready_uninstall i w Hr) as (w1 & -> & Hi & Hh & Hr1).
    destruct (IH w1 Hr1) as (w' & -> & Hi' & Hh' & Hr').
    exists w'. split_and!; [done| |congruence|done].
    rewrite Hi', Hi. set_solver.
Qed.

Lemma ready_install self w : ready w → ready (install self w).
Proof.
  intros Hr. destruct (heap w !! self) as [s|] eqn:Hobj.
  - destruct (install_spec self s w Hobj) as (o' & lg' & -> & _ & _ & _ & Hin & _).
    intros i Hi. simpl in *. destruct (decide (i = self)) as [->|Hne].
    + exists (set_old o' s). rewrite lookup_insert_eq. split; [done|].
      simpl. intros n Hn. destruct (Hin n Hn) as (L & -> & _). by eexists.
    + rewrite lookup_insert_ne by done. apply Hr. set_solver.
  - unfold install. by rewrite Hobj.
Qed.

Lemma ready_update_records self f w :
  (∀ s, names (f s) = names s ∧ old (f s) = old s) →
  ready w → ready (update_object self f w).
Proof.
  intros Hf Hr i Hi. simpl in *. destruct (Hr i Hi) as (s & Hobj & Hsaved).
  destruct (decide (i = self)) as [->|Hne].
  - exists (f s). rewrite lookup_alter_eq, Hobj. split; [done|].
    destruct (Hf s) as [-> ->]. done.
  - exists s. by rewrite lookup_alter_ne.
Qed.

Lemma ready_construct sub a inst lvl prop attrs rc w :
  ready w → ready (construct sub a inst lvl prop attrs rc w).2.
Proof.
  intros Hr. unfold construct. cbn [snd].
  match goal with |- ready (if _ then install _ ?w1 else _) =>
    assert (ready w1) as Hr1 end.
  { intros i Hi. simpl in *. destruct (Hr i Hi) as (s & Hobj & Hsaved).
    exists s. split; [|done]. rewrite lookup_insert_ne; [done|].
    intros <-. eapply (is_fresh (dom (heap w))). apply elem_of_dom. by eexists. }
  destruct inst; [by apply ready_install | done].
Qed.

Lemma ready_step w w' : ready w → step w w' → ready w'.
Proof.
  intros Hr Hstep. destruct Hstep.
  - by apply ready_construct.
  - by apply ready_construct.
  - by apply ready_install.
  - destruct (ready_uninstall self w Hr) as (w' & -> & _ & _ & Hr'). done.
  - destruct (ready_uninstall_each order w Hr) as (w' & -> & _ & _ & Hr'). done.
  - by apply ready_update_records.
  - by apply ready_update_records.
  - done.
Qed.

Lemma reachable_ready w : reachable w → ready w.
Proof.
  assert (∀ w0, instances w0 = ∅ → rtc step w0 w → ready w) as Hfrom.
  { intros w0 Hempty. revert w. apply rtc_ind_r.
    - intros i Hi. rewrite Hempty in Hi. set_solver.
    - intros w1 w2 _ Hstep Hr. by eapply ready_step. }
  intros [H|H]; (eapply Hfrom; [|exact H]); done.
Qed.

Lemma heap_uninstall self w : heap (uninstall self w).1 = heap w.
Proof.
  unfold uninstall, uninstall_object. destruct (heap w !! self) as [s|]; [|done].
  destruct (decide (self ∈ instances w)); [|done].
  by destruct (uninstall_names (old s) (loggers w) (names s)) as [lg [err|]].
Qed.

Lemma flag_uninstall self w :
  root_by_name (loggers (uninstall self w).1) = root_by_name (loggers w).
Proof.
  unfold uninstall, uninstall_object. destruct (heap w !! self) as [s|]; [|done].
  destruct (decide (self ∈ instances w)); [|done].
  pose proof (uninstall_names_flag (old s) (names s) (loggers w)) as H.
  by destruct (uninstall_names (old s) (loggers w) (names s)) as [lg [err|]].
Qed.

Lemma flag_install self w :
  root_by_name (loggers (install self w)) = root_by_name (loggers w).
Proof.
  destruct (heap w !! self) as [s|] eqn:Hobj.
  - by destruct (install_spec self s w Hobj) as (o' & lg' & -> & ? & _).
  - unfold install. by rewrite Hobj.
Qed.

Lemma heap_install self w i s' :
  heap (install self w) !! i = Some s' →
  ∃ s, heap w !! i = Some s ∧ records s' = records s ∧
       attributes s' = attributes s ∧ names s' = names s ∧
       level s' = level s ∧ propagate s' = propagate s ∧
       recursive_check s' = recursive_check s ∧
       (i ≠ self → s' = s).
Proof.
  destruct (heap w !! self) as [s|] eqn:Hobj.
  - destruct (install_spec self s w Hobj) as (o' & lg' & -> & _). simpl.
    destruct (decide (i = self)) as [->|Hne].
    + rewrite lookup_insert_eq. intros [= <-]. exists s. by split_and!.
    + rewrite lookup_insert_ne by done. intros H. exists s'. by split_and!.
  - unfold install. rewrite Hobj. intros H. exists s'. by split_and!.
Qed.

Lemma install_other_objects self w i :
  i ≠ self → heap (install self w) !! i = heap w !! i.
Proof.
  intros Hne. destruct (heap w !! self) as [s|] eqn:Hobj.
  - destruct (install_spec self s w Hobj) as (o' & lg' & -> & _). simpl.
    by rewrite lookup_insert_ne.
  - unfold install. by rewrite Hobj.
Qed.

Lemma instances_install self w : instances w ⊆ instances (install self w).
Proof.
  destruct (heap w !! self) as [s|] eqn:Hobj.
  - destruct (install_spec self s w Hobj) as (o' & lg' & -> & _). simpl. set_solver.
  - unfold install. by rewrite Hobj.
Qed.

Lemma instances_uninstall i w :
  instances (uninstall i w).1 = instances w ∨
  instances (uninstall i w).1 = instances w ∖ {[i]}.
Proof.
  unfold uninstall, uninstall_object. destruct (heap w !! i) as [s|]; [|by left].
  destruct (decide (i ∈ instances w)); [|by left].
  destruct (uninstall_names (old s) (loggers w) (names s)) as [lg [err|]];
    [by left | by right].
Qed.

Lemma attached_intro self s w :
  self ∈ instances w → heap w !! self = Some s → attached self s w.
Proof. intros Hin Hobj. split; [done|]. by exists s. Qed.

Lemma attached_construct self s sub a inst lvl prop attrs rc w :
  attached self s w → attached self s (construct sub a inst lvl prop attrs rc w).2.
Proof.
  intros (Hin & s' & Hobj & Hs). unfold construct. cbn [snd].
  assert (fresh (dom (heap w)) ≠ self) as Hne.
  { intros <-. eapply (is_fresh (dom (heap w))). by eapply elem_of_dom_2. }
  match goal with |- attached _ _ (if _ then install ?i ?w1 else _) =>
    assert (attached self s w1) as Hat1 end.
  { split; [done|]. exists s'. simpl. by rewrite lookup_insert_ne. }
  destruct inst; [|done]. destruct Hat1 as (Hin1 & s1 & Hobj1 & Hs1). split.
  - by apply instances_install.
  - exists s1. by rewrite install_other_objects.
Qed.

Lemma attached_body_step self s w w' :
  body_step self w w' → attached self s w → attached self s w'.
Proof.
  intros Hstep Hat. destruct Hstep.
  - destruct Hat as (Hin & s' & Hobj & Hs). split; [done|]. simpl.
    destruct (decide (i = self)) as [->|Hne].
    + eexists. rewrite lookup_alter_eq, Hobj. by split.
    + exists s'. by rewrite lookup_alter_ne.
  - destruct Hat as (Hin & s' & Hobj & Hs). split; [done|]. simpl.
    destruct (decide (i = self)) as [->|Hne].
    + eexists. rewrite lookup_alter_eq, Hobj. by split.
    + exists s'. by rewrite lookup_alter_ne.
  - done.
  - by apply attached_construct.
  - by apply attached_construct.
  - destruct Hat as (Hin & s' & Hobj & Hs). split.
    + by apply instances_install.
    + exists s'. by rewrite install_other_objects.
  - destruct Hat as (Hin & s' & Hobj & Hs). split.
    + destruct (instances_uninstall i w) as [-> | ->]; set_solver.
    + exists s'. by rewrite heap_uninstall.
Qed.

Lemma attached_body self s w w' :
  rtc (body_step self) w w' → attached self s w → attached self s w'.
Proof. induction 1; eauto using attached_body_step. Qed.

Lemma flag_body_step self w w' :
  body_step self w w' → root_by_name (loggers w') = root_by_name (loggers w).
Proof.
  intros Hstep. destruct Hstep; try done.
  - unfold new_LogCapture, construct. cbn [snd]. destruct inst; [|done].
    by rewrite flag_install.
  - apply flag_install.
  - apply flag_uninstall.
Qed.

Lemma flag_body self w w' :
  rtc (body_step self) w w' → root_by_name (loggers w') = root_by_name (loggers w).
Proof.
  induction 1 as [|w1 w2 w3 Hstep _ IH]; [done|].
  by rewrite IH, (flag_body_step _ _ _ Hstep).
Qed.

(** What [uninstall] does to a capture that is attached as the object
    [s]: every logger one of its names stands for gets an entry that [s]
    saved for one of the names of that logger. *)
Lemma uninstall_attached self s w :
  attached self s w →
  (∀ n, n ∈ names s → is_Some (saved_logger (old s) n)) →
  ∃ w2, uninstall self w = (w2, None) ∧
        (∀ n, targeted (loggers w) (names s) n →
           ∃ m, m ∈ names s ∧ logger_key (loggers w) m = logger_key (loggers w) n ∧
                saved_logger (old s) m = Some (getLogger n (loggers w2))) ∧
        (∀ n, untargeted (loggers w) (names s) n →
           getLogger n (loggers w2) = getLogger n (loggers w)) ∧
        instances w2 = instances w ∖ {[self]} ∧
        heap w2 = heap w.
Proof.
  intros (Hin & s' & Hobj & Hs) Hsaved.
  assert (names s' = names s ∧ old s' = old s) as [Hn Ho].
  { by injection Hs. }
  destruct (uninstall_spec self s' w Hobj Hin) as (lg2 & -> & _ & Hin2 & Hout2).
  { by rewrite Hn, Ho. }
  rewrite Hn, Ho in *. eexists. by split_and!.
Qed.

(** The core of the bracket [install] ... [uninstall]. *)
Lemma bracket self s w w' :
  heap w !! self = Some s → distinct_loggers (loggers w) (names s) →
  rtc (body_step self) (install self w) w' →
  ∃ w2, uninstall self w' = (w2, None) ∧
        (∀ name, targeted (loggers w) (names s) name →
           getLogger name (loggers w2) = getLogger name (loggers w)) ∧
        (∀ name, untargeted (loggers w) (names s) name →
           getLogger name (loggers w2) = getLogger name (loggers w')) ∧
        instances w2 = instances w' ∖ {[self]} ∧
        heap w2 = heap w'.
Proof.
  intros Hobj Hnd Hbody.
  destruct (install_spec self s w Hobj) as (o1 & lg1 & Hw1 & _ & _ & _ & Hsaved & _).
  assert (attached self (set_old o1 s) (install self w)) as Hat.
  { rewrite Hw1. apply attached_intro; simpl; [set_solver|].
    by rewrite lookup_insert_eq. }
  apply (attached_body _ _ _ _ Hbody) in Hat.
  assert (root_by_name (loggers w') = root_by_name (loggers w)) as Hflag.
  { by rewrite (flag_body _ _ _ Hbody), flag_install. }
  destruct (uninstall_attached self _ w' Hat) as (w2 & Hw2 & Hin2 & Hout2 & Hi & Hh).
  { simpl. intros n Hn. destruct (Hsaved n Hn) as (L & -> & _). by eexists. }
  simpl in *. exists w2. split_and!; [done| | |done..].
  - intros name Hname. destruct (Hin2 name) as (m & Hm & Hk & Hs).
    { by apply (targeted_flag (loggers w)). }
    destruct (Hsaved m Hm) as (L & HL & _ & HL').
    rewrite HL, (HL' Hnd) in Hs. injection Hs as <-.
    apply getLogger_key. by rewrite <- !(logger_key_flag _ _ _ Hflag).
  - intros name Hname. apply Hout2. by apply (untargeted_flag (loggers w)).
Qed.

Lemma emit_all_object self rs w s :
  heap w !! self = Some s →
  heap (emit_all self rs w) !! self = Some (set_records (records s ++ rs) s) ∧
  (∀ i, i ≠ self → heap (emit_all self rs w) !! i = heap w !! i) ∧
  loggers (emit_all self rs w) = loggers w ∧
  instances (emit_all self rs w) = instances w.
Proof.
  unfold emit_all. revert w s. induction rs as [|r rs IH]; intros w s Hobj; simpl.
  - rewrite app_nil_r. by destruct s.
  - destruct (IH (emit self r w) (set_records (records s ++ [r]) s))
      as (H1 & H2 & H3 & H4).
    { simpl. by rewrite lookup_alter_eq, Hobj. }
    rewrite H1, H3, H4. simpl. rewrite <- app_assoc. split_and!; [done| |done..].
    intros i Hi. rewrite (H2 i Hi). simpl. by rewrite lookup_alter_ne.
Qed.

Lemma body_emit_all self rs w : rtc (body_step self) w (emit_all self rs w).
Proof.
  unfold emit_all. revert w. induction rs as [|r rs IH]; intros w; simpl; [done|].
  eapply rtc_l; [apply body_emit | apply IH].
Qed.

Lemma flags_uninstall i w :
  atexit_setup (uninstall i w).1 = atexit_setup w ∧
  decorator_atexit_setup (uninstall i w).1 = decorator_atexit_setup w ∧
  atexit_hooks (uninstall i w).1 = atexit_hooks w ∧
  decorators (uninstall i w).1 = decorators w ∧
  instances (uninstall i w).1 ⊆ instances w.
Proof.
  unfold uninstall, uninstall_object. destruct (heap w !! i) as [s|]; [|done].
  destruct (decide (i ∈ instances w)); [|done].
  destruct (uninstall_names (old s) (loggers w) (names s)) as [lg [err|]]; simpl;
    split_and!; set_solver.
Qed.

Lemma hooked_uninstall i w : hooked w → hooked (uninstall i w).1.
Proof.
  intros [Hh Hs]. destruct (flags_uninstall i w) as (H1 & H2 & H3 & _ & H4).
  split; [by rewrite H1, H2, H3|]. rewrite H1, H2. intros Hne. apply Hs. set_solver.
Qed.

Lemma hooked_uninstall_each order w : hooked w → hooked (uninstall_each order w).1.
Proof.
  revert w. induction order as [|i order IH]; intros w Hw; simpl; [done|].
  pose proof (hooked_uninstall i w Hw) as H1.
  destruct (uninstall i w) as [w1 [e|]]; [done|]. by apply IH.
Qed.

Lemma hooked_install i w : hooked w → hooked (install i w).
Proof.
  intros [Hh Hs]. destruct (heap w !! i) as [s|] eqn:Hobj.
  - destruct (install_spec i s w Hobj) as (o' & lg' & -> & _).
    unfold class_atexit_setup. split; simpl.
    + rewrite Hh. destruct (decide (i ∈ decorators w));
        by destruct (atexit_setup w), (decorator_atexit_setup w).
    + intros _. destruct (decide (i ∈ decorators w));
        by destruct (atexit_setup w), (decorator_atexit_setup w).
  - unfold install. by rewrite Hobj.
Qed.

Lemma hooked_construct sub a inst lvl prop attrs rc w :
  hooked w → hooked (construct sub a inst lvl prop attrs rc w).2.
Proof.
  intros Hw. unfold construct. cbn [snd]. destruct inst; [|done].
  by apply hooked_install.
Qed.

Lemma hooked_step w w' : hooked w → step w w' → hooked w'.
Proof.
  intros Hw Hstep. destruct Hstep.
  - by apply hooked_construct.
  - by apply hooked_construct.
  - by apply hooked_install.
  - by apply hooked_uninstall.
  - by apply hooked_uninstall_each.
  - done.
  - done.
  - done.
Qed.

Lemma reachable_hooked w : reachable w → hooked w.
Proof.
  assert (∀ w0, hooked w0 → rtc step w0 w → hooked w) as Hfrom.
  { intros w0 H0. revert w. apply rtc_ind_r; [done|].
    intros w1 w2 _ Hstep Hw1. by eapply hooked_step. }
  intros [H|H]; (eapply Hfrom; [|exact H]); by split.
Qed.

Lemma root_world_reachable : reachable root_world.
Proof. left. apply rtc_once. unfold root_world. apply step_new. Qed.
End world.

(** ** install followed by uninstall *)

(** C2.  [install] followed at once by [uninstall] does not give a logger
    back its configuration when the names of the capture hold the name of
    that logger twice: the second turn of the loop of [install] saves what
    the first turn wrote, and [uninstall] restores that.  The logger [a],
    which had level 0 and no handler, is left with the capture level and
    with the capture as its only handler, and the entry saved for it is
    not what it had before [install]. *)
Lemma round_trip_repeated_name :
  names <$> (heap twice_world !! 0) = Some [Some "a"; Some "a"] ∧
  getLogger (Some "a") (loggers twice_world) = mkLogger 0 [] false true ∧
  (old <$> heap (install 0 twice_world) !! 0) ≫= (λ o, saved_logger o (Some "a"))
  = Some (mkLogger 1 [0] false true) ∧
  (uninstall 0 (install 0 twice_world)).2 = None ∧
  getLogger (Some "a") (loggers (uninstall 0 (install 0 twice_world)).1)
  = mkLogger 1 [0] false true.
Proof. by vm_compute. Qed.

(** The same with two names of one logger: [None] and the empty string
    both stand for the root logger, which had level 30 and no handler and
    is left captured. *)
Example round_trip_aliased_names :
  names <$> (heap alias_world !! 0) = Some [None; Some ""] ∧
  getLogger None (loggers alias_world) = mkLogger 30 [] false true ∧
  (uninstall 0 (install 0 alias_world)).2 = None ∧
  getLogger None (loggers (uninstall 0 (install 0 alias_world)).1)
  = mkLogger 1 [0] false true ∧
  getLogger (Some "") (loggers (uninstall 0 (install 0 alias_world)).1)
  = mkLogger 1 [0] false true.
Proof. by vm_compute. Qed.

(** C10.  A capture is installed, then installed again without
    [uninstall] in between, its loggers having kept in the meantime the
    configuration that the first [install] gave them.  The entry saved for
    every name is then that configuration: the capture level, the capture
    as only handler, enabled (and the propagation flag as the first call
    left it).  Whatever happens to the loggers after the second [install],
    [uninstall] raises nothing and gives every logger of the capture
    exactly that saved configuration: the capture is its only handler, and
    a logger that had other handlers before the first [install] is not
    given them back. *)
Theorem nested_install_overwrites_snapshot (self : nat) (s : LogCapture)
    (w w1 w' : World)
    (Hobj : heap w !! self = Some s)
    (Hgap : rtc (body_step self) (install self w) w1)
    (Hkept : ∀ name, name ∈ names s →
       getLogger name (loggers w1) = getLogger name (loggers (install self w)))
    (Hbody : rtc (body_step self) (install self w1) w') :
  ∃ s2 w3,
    heap (install self w1) !! self = Some s2 ∧
    uninstall self w' = (w3, None) ∧
    ∀ name, name ∈ names s →
      saved_logger (old s2) name
      = Some (mkLogger (level s) [self] false
                (default (logger_propagate (getLogger name (loggers w))) (propagate s))) ∧
      getLogger name (loggers w3)
      = mkLogger (level s) [self] false
          (default (logger_propagate (getLogger name (loggers w))) (propagate s)) ∧
      logger_handlers (getLogger name (loggers w3)) = [self] ∧
      (logger_handlers (getLogger name (loggers w)) ≠ [self] →
       getLogger name (loggers w3) ≠ getLogger name (loggers w)).
Proof.
  destruct (install_spec self s w Hobj) as (o1 & lg1 & Hw1 & Hflag1 & Hin1 & _).
  assert (attached self (set_old o1 s) (install self w)) as Hat.
  { rewrite Hw1. apply attached_intro; simpl; [set_solver|].
    by rewrite lookup_insert_eq. }
  apply (attached_body _ _ _ _ Hgap) in Hat as (_ & s1 & Hobj1 & Hs1).
  assert (names s1 = names s ∧ level s1 = level s ∧ propagate s1 = propagate s)
    as (Hn & Hl & Hp).
  { by injection Hs1. }
  destruct (install_spec self s1 w1 Hobj1)
    as (o2 & lg2 & Hw2 & Hflag2 & _ & _ & Hsaved2 & _).
  rewrite Hn, Hl, Hp in Hsaved2.
  assert (∀ name, name ∈ names s →
            getLogger name (loggers w1)
            = capture self (level s) (propagate s) (getLogger name (loggers w)))
    as Hcaptured.
  { intros name Hname. rewrite (Hkept name Hname), Hw1. simpl.
    apply Hin1. by apply name_targeted. }
  assert (∀ name, name ∈ names s →
            saved_logger o2 name
            = Some (capture self (level s) (propagate s) (getLogger name (loggers w))))
    as Hsaved.
  { intros name Hname. destruct (Hsaved2 name Hname) as (L & -> & Hor & _).
    rewrite (Hcaptured name Hname), capture_capture in Hor. by destruct Hor as [->| ->]. }
  assert (heap (install self w1) !! self = Some (set_old o2 s1)) as Hobj2.
  { rewrite Hw2. simpl. by rewrite lookup_insert_eq. }
  assert (attached self (set_old o2 s1) (install self w1)) as Hat2.
  { apply attached_intro; [|done]. rewrite Hw2. simpl. set_solver. }
  apply (attached_body _ _ _ _ Hbody) in Hat2.
  assert (root_by_name (loggers w') = root_by_name (loggers w)) as Hflag.
  { rewrite (flag_body _ _ _ Hbody), flag_install, (flag_body _ _ _ Hgap).
    apply flag_install. }
  destruct (uninstall_attached self _ w' Hat2) as (w3 & Hw3 & Hin3 & _).
  { simpl. rewrite Hn. intros n Hname. rewrite (Hsaved n Hname). by eexists. }
  simpl in Hin3. rewrite Hn in Hin3.
  exists (set_old o2 s1), w3. split_and!; [done..|].
  intros name Hname.
  assert (getLogger name (loggers w3)
          = capture self (level s) (propagate s) (getLogger name (loggers w))) as Hfinal.
  { destruct (Hin3 name) as (m & Hm & Hk & Hsm); [by apply name_targeted|].
    rewrite (Hsaved m Hm) in Hsm. injection Hsm as <-. f_equal.
    apply getLogger_key. by rewrite <- !(logger_key_flag _ _ _ Hflag). }
  split_and!.
  - simpl. by rewrite (Hsaved name Hname).
  - by rewrite Hfinal.
  - by rewrite Hfinal.
  - intros Hne E. apply Hne. by rewrite <- E, Hfinal.
Qed.

Lemma nested_install_overwrites_snapshot_witness :
  ∃ s2 w3,
    heap (install 0 (emit 0 (info_record "a" "hello") (install 0 two_names_world))) !! 0
    = Some s2 ∧
    uninstall 0
      (configure (Some "a") (mkLogger 50 [9] false true)
         (install 0 (emit 0 (info_record "a" "hello") (install 0 two_names_world))))
    = (w3, None) ∧
    ∀ name, name ∈ [Some "a"; Some "b"] →
      saved_logger (old s2) name
      = Some (mkLogger 1 [0] false
                (default (logger_propagate (getLogger name (loggers two_names_world)))
                         (Some false))) ∧
      getLogger name (loggers w3)
      = mkLogger 1 [0] false
          (default (logger_propagate (getLogger name (loggers two_names_world)))
                   (Some false)) ∧
      logger_handlers (getLogger name (loggers w3)) = [0] ∧
      (logger_handlers (getLogger name (loggers two_names_world)) ≠ [0] →
       getLogger name (loggers w3) ≠ getLogger name (loggers two_names_world)).
Proof.
  apply (nested_install_overwrites_snapshot 0
           (mkLogCapture [Some "a"; Some "b"] 1 (Some false) default_attributes false
                         no_saved [])
           two_names_world
           (emit 0 (info_record "a" "hello") (install 0 two_names_world))).
  - reflexivity.
  - apply rtc_once. apply body_emit.
  - intros name _. reflexivity.
  - apply rtc_once. apply body_configure.
Defined.

(** ** The set of installed captures *)

(** C7.  After [install] and two calls of [uninstall] in a row, neither of
    which raises and the second of which changes nothing, the logger of a
    capture whose names hold its name twice does not have the
    configuration it had before [install]: the logger [a], which had level
    0 and no handler, has the capture level and the capture as its only
    handler. *)
Lemma uninstall_twice_repeated_name :
  getLogger (Some "a") (loggers twice_world) = mkLogger 0 [] false true ∧
  (uninstall 0 (install 0 twice_world)).2 = None ∧
  uninstall 0 (uninstall 0 (install 0 twice_world)).1
  = ((uninstall 0 (install 0 twice_world)).1, None) ∧
  getLogger (Some "a") (loggers (uninstall 0 (uninstall 0 (install 0 twice_world)).1).1)
  = mkLogger 1 [0] false true.
Proof. by vm_compute. Qed.

(** Outside the reachable states [uninstall] can raise: the subscription
    of an empty [old] fails. *)
Example uninstall_needs_saved_entries :
  (uninstall 0 unsaved_world).2 = Some (KeyError None) ∧ ¬ reachable unsaved_world.
Proof.
  split; [by vm_compute|]. intros Hr. apply reachable_ready in Hr.
  destruct (Hr 0) as (s & Hobj & Hsaved); [by vm_compute|].
  injection Hobj as <-. destruct (Hsaved None) as [L HL]; [by left|].
  by vm_compute in HL.
Qed.

(** C8.  In every state a process can reach, the members of [instances]
    are capture objects; [install] adds the capture to the set and
    [uninstall] removes it, raising nothing; [uninstall_all], whatever the
    order in which the snapshot of the set is walked, raises nothing and
    leaves the set empty; creating a capture without installing it,
    [clear] and [emit] leave the set as it is, and creating a capture with
    [install=True] adds the new capture.  The set is empty when the process
    starts. *)
Theorem instances_tracks_installs (w : World) (Hreach : reachable w) :
  instances initial_world = ∅ ∧
  instances w ⊆ dom (heap w) ∧
  (∀ self, is_Some (heap w !! self) →
     instances (install self w) = {[self]} ∪ instances w) ∧
  (∀ self, ∃ w', uninstall self w = (w', None) ∧
                 instances w' = instances w ∖ {[self]}) ∧
  (∀ order, order ≡ₚ elements (instances w) →
     ∃ w', uninstall_each order w = (w', None) ∧ instances w' = ∅) ∧
  (∃ w', uninstall_all w = (w', None) ∧ instances w' = ∅) ∧
  (∀ a lvl prop attrs rc,
     instances (new_LogCapture a false lvl prop attrs rc w).2 = instances w ∧
     instances (new_LogCapture a true lvl prop attrs rc w).2
     = {[(new_LogCapture a true lvl prop attrs rc w).1]} ∪ instances w) ∧
  (∀ self, instances (clear self w) = instances w) ∧
  (∀ self record, instances (emit self record w) = instances w).
Proof.
  apply reachable_ready in Hreach.
  assert (∀ order, order ≡ₚ elements (instances w) →
            ∃ w', uninstall_each order w = (w', None) ∧ instances w' = ∅) as Hall.
  { intros order Hp.
    destruct (ready_uninstall_each order w Hreach) as (w' & Hw' & Hi & _).
    exists w'. split; [done|]. rewrite Hi.
    apply set_eq. intros i. rewrite elem_of_difference, elem_of_list_to_set, Hp.
    rewrite elem_of_elements. set_solver. }
  split_and!.
  - done.
  - intros i Hi. destruct (Hreach i Hi) as (s & Hobj & _).
    apply elem_of_dom. by eexists.
  - intros self [s Hobj].
    by destruct (install_spec self s w Hobj) as (o' & lg' & -> & _).
  - intros self. destruct (ready_uninstall self w Hreach) as (w' & Hw' & Hi & _).
    by exists w'.
  - exact Hall.
  - by apply Hall.
  - intros a lvl prop attrs rc. split; [done|].
    unfold new_LogCapture, construct. cbn [fst snd].
    match goal with |- context [install ?i ?w1] =>
      destruct (install_spec i (mkLogCapture (names_of a) lvl prop attrs rc no_saved [])
                             w1) as (o' & lg' & -> & _)
    end; [|done].
    simpl. by rewrite lookup_insert_eq.
  - done.
  - done.
Qed.

Lemma instances_tracks_installs_witness :
  instances (install 0 root_world) = {[0]} ∪ instances root_world ∧
  (∃ w', uninstall 0 root_world = (w', None) ∧
         instances w' = instances root_world ∖ {[0]}) ∧
  (∃ w', uninstall_all root_world = (w', None) ∧ instances w' = ∅).
Proof.
  pose proof (instances_tracks_installs root_world root_world_reachable)
    as (_ & _ & Hinstall & Huninstall & _ & Hall & _).
  split_and!.
  - apply Hinstall. eexists. reflexivity.
  - apply Huninstall.
  - exact Hall.
Defined.

(** ** More on the buffer and its projection *)

Lemma actual_set_records (self : LogCapture) (rs : list LogRecord) :
  actual (set_records rs self) = project (attributes self) <$> rs.
Proof. by rewrite actual_project. Qed.

(** X1.  When [attributes] is a callable, [actual] is the list of its
    results on the buffered records, in buffer order. *)
Theorem actual_callable (self : LogCapture) (f : LogRecord → value)
    (Hattrs : attributes self = AttrCallable f) :
  actual self = f <$> records self.
Proof. by rewrite actual_project, Hattrs. Qed.

Lemma actual_callable_witness :
  actual message_length_capture = [VInt 5; VInt 2].
Proof.
  exact (actual_callable message_length_capture _ eq_refl).
Defined.

(** X2.  With an empty sequence of selectors every buffered record gives
    the empty tuple: [actual] has one empty tuple per record. *)
Theorem actual_without_selectors (self : LogCapture)
    (Hattrs : attributes self = AttrNames []) :
  actual self = replicate (length (records self)) (VTuple []).
Proof.
  rewrite actual_project, Hattrs.
  induction (records self) as [|r rs IH]; [done|]. by rewrite fmap_cons, IH.
Qed.

Lemma actual_without_selectors_witness :
  actual (mkLogCapture [None] 1 None (AttrNames []) false no_saved
            [info_record "root" "hello"; info_record "root" "hi"])
  = [VTuple []; VTuple []].
Proof.
  exact (actual_without_selectors
           (mkLogCapture [None] 1 None (AttrNames []) false no_saved
              [info_record "root" "hello"; info_record "root" "hi"]) eq_refl).
Defined.

(** X3.  [emit] appends: after it [actual] is what it was followed by the
    row of the new record, and after a series of [emit] by the rows of the
    new records in order; after [clear] it is empty.  Neither touches
    another capture object. *)
Theorem emit_extends_actual (self : nat) (s : LogCapture) (w : World)
    (Hobj : heap w !! self = Some s) :
  (∀ record, ∃ s', heap (emit self record w) !! self = Some s' ∧
       actual s' = actual s ++ [project (attributes s) record]) ∧
  (∀ rs, ∃ s', heap (emit_all self rs w) !! self = Some s' ∧
       actual s' = actual s ++ (project (attributes s) <$> rs)) ∧
  (∃ s', heap (clear self w) !! self = Some s' ∧ actual s' = []) ∧
  (∀ record i, i ≠ self →
     heap (emit self record w) !! i = heap w !! i ∧
     heap (clear self w) !! i = heap w !! i).
Proof.
  split_and!.
  - intros record. eexists. simpl. rewrite lookup_alter_eq, Hobj. split; [done|].
    by rewrite actual_set_records, fmap_app, actual_project.
  - intros rs. destruct (emit_all_object self rs w s Hobj) as [-> _].
    eexists. split; [done|].
    by rewrite actual_set_records, fmap_app, actual_project.
  - eexists. simpl. rewrite lookup_alter_eq, Hobj. split; [done|].
    by rewrite actual_set_records.
  - intros record i Hi. simpl. by rewrite !lookup_alter_ne.
Qed.

Lemma emit_extends_actual_witness :
  ∃ s', heap (emit 0 (info_record "a" "hello") two_names_world) !! 0 = Some s' ∧
        actual s' = [] ++ [VTuple [VStr "a"; VStr "INFO"; VStr "hello"]].
Proof.
  exact (proj1 (emit_extends_actual 0
           (mkLogCapture [Some "a"; Some "b"] 1 (Some false) default_attributes false
                         no_saved [])
           two_names_world eq_refl) (info_record "a" "hello")).
Defined.

(** X4.  [uninstall] changes no capture object, whether it raises or
    not, and [install] creates none and keeps the records of every one, so
    what [actual] returns is the same before and after. *)
Theorem install_uninstall_keep_records (self : nat) (w : World) :
  heap (uninstall self w).1 = heap w ∧
  dom (heap (install self w)) = dom (heap w) ∧
  (∀ i s', heap (install self w) !! i = Some s' →
     ∃ s, heap w !! i = Some s ∧ records s' = records s ∧ actual s' = actual s).
Proof.
  split_and!.
  - apply heap_uninstall.
  - destruct (heap w !! self) as [s|] eqn:Hobj.
    + destruct (install_spec self s w Hobj) as (o' & lg' & -> & _). simpl.
      rewrite dom_insert_L. apply elem_of_dom_2 in Hobj. set_solver.
    + unfold install. by rewrite Hobj.
  - intros i s' Hs'. destruct (heap_install self w i s' Hs') as (s & Hs & Hr & Ha & _).
    exists s. split_and!; [done..|]. by rewrite !actual_project, Hr, Ha.
Qed.

(** ** More on install and uninstall *)

(** X5.  After [install] every logger that a name of the capture stands
    for, under that name or under another name of the same logger, has the
    capture level, the capture as only handler, is enabled, and propagates
    as the override says, or as before when there is none; the other
    loggers and the other capture objects are as before, and the capture
    is a member of [instances].  When its names stand for loggers that
    differ two by two, the entry saved for each name is the configuration
    that its logger had before [install]. *)
Theorem install_captures_targets (self : nat) (s : LogCapture) (w : World)
    (Hobj : heap w !! self = Some s) :
  (∀ name, targeted (loggers w) (names s) name →
     getLogger name (loggers (install self w))
     = mkLogger (level s) [self] false
         (default (logger_propagate (getLogger name (loggers w))) (propagate s))) ∧
  (∀ name, untargeted (loggers w) (names s) name →
     getLogger name (loggers (install self w)) = getLogger name (loggers w)) ∧
  (∀ i, i ≠ self → heap (install self w) !! i = heap w !! i) ∧
  self ∈ instances (install self w) ∧
  (distinct_loggers (loggers w) (names s) →
   ∀ name, name ∈ names s →
     (old <$> heap (install self w) !! self) ≫= (λ o, saved_logger o name)
     = Some (getLogger name (loggers w))).
Proof.
  destruct (install_spec self s w Hobj) as (o' & lg' & -> & _ & Hin & Hout & Hsaved & _).
  simpl. split_and!.
  - intros name Hn. by rewrite (Hin name Hn).
  - done.
  - intros i Hi. by rewrite lookup_insert_ne.
  - set_solver.
  - intros Hnd name Hn. rewrite lookup_insert_eq. simpl.
    destruct (Hsaved name Hn) as (L & -> & _ & HL). by rewrite (HL Hnd).
Qed.

Lemma install_captures_targets_witness :
  getLogger (Some "a") (loggers (install 0 two_names_world))
  = mkLogger 1 [0] false false ∧
  getLogger None (loggers (install 0 empty_name_world)) = mkLogger 1 [0] false true.
Proof.
  split.
  - apply (proj1 (install_captures_targets 0
             (mkLogCapture [Some "a"; Some "b"] 1 (Some false) default_attributes false
                           no_saved [])
             two_names_world eq_refl) (Some "a")).
    unfold targeted. vm_compute. left.
  - apply (proj1 (install_captures_targets 0
             (mkLogCapture [Some ""] 1 None default_attributes false no_saved [])
             empty_name_world eq_refl) None).
    unfold targeted. vm_compute. left.
Defined.

(** X6.  When the names of the capture stand for loggers that differ two
    by two, whatever happens between its [install] and its [uninstall]
    short of installing or uninstalling that capture itself (records
    emitted or cleared, loggers reconfigured, other captures created,
    installed or uninstalled), [uninstall] raises nothing, gives every
    logger that a name of the capture stands for the configuration it had
    before [install], leaves the other loggers as they are at that moment,
    removes the capture from [instances] and changes no capture object. *)
Theorem uninstall_restores_targets (self : nat) (s : LogCapture) (w w' : World)
    (Hobj : heap w !! self = Some s)
    (Hdistinct : distinct_loggers (loggers w) (names s))
    (Hbody : rtc (body_step self) (install self w) w') :
  ∃ w2, uninstall self w' = (w2, None) ∧
        (∀ name, targeted (loggers w) (names s) name →
           getLogger name (loggers w2) = getLogger name (loggers w)) ∧
        (∀ name, untargeted (loggers w) (names s) name →
           getLogger name (loggers w2) = getLogger name (loggers w')) ∧
        instances w2 = instances w' ∖ {[self]} ∧
        heap w2 = heap w'.
Proof. by apply bracket. Qed.

Lemma uninstall_restores_targets_witness :
  ∃ w2, uninstall 0
          (configure (Some "a") (mkLogger 50 [9] false true)
             (emit 0 (info_record "a" "hello") (install 0 two_names_world)))
        = (w2, None) ∧
        getLogger (Some "a") (loggers w2) = mkLogger 20 [7] true true.
Proof.
  destruct (uninstall_restores_targets 0
              (mkLogCapture [Some "a"; Some "b"] 1 (Some false) default_attributes false
                            no_saved [])
              two_names_world
              (configure (Some "a") (mkLogger 50 [9] false true)
                 (emit 0 (info_record "a" "hello") (install 0 two_names_world))))
    as (w2 & Hw2 & Hin & _).
  - reflexivity.
  - unfold distinct_loggers. apply (bool_decide_unpack _). by vm_compute.
  - eapply rtc_l; [apply body_emit|]. apply rtc_once, body_configure.
  - exists w2. split; [exact Hw2|]. apply (Hin (Some "a")).
    unfold targeted. vm_compute. left.
Defined.

Lemma install_other_loggers self s w n :
  heap w !! self = Some s → untargeted (loggers w) (names s) n →
  getLogger n (loggers (install self w)) = getLogger n (loggers w).
Proof.
  intros Hobj Hn.
  destruct (install_spec self s w Hobj) as (o' & lg' & -> & _ & _ & Hout & _).
  simpl. by apply Hout.
Qed.

(** X7.  Two different captures, the names of each standing for loggers
    that differ two by two, that are installed one inside the other and
    uninstalled in the reverse order leave every logger as it was, even
    when they name the same loggers: the inner [uninstall] gives back what
    the outer [install] had set, and the outer [uninstall] the original
    configuration. *)
Theorem nested_captures_restore (outer inner : nat) (so si : LogCapture) (w : World)
    (Houter : heap w !! outer = Some so) (Hinner : heap w !! inner = Some si)
    (Hne : outer ≠ inner)
    (Hdo : distinct_loggers (loggers w) (names so))
    (Hdi : distinct_loggers (loggers w) (names si)) :
  ∃ w3 w4,
    uninstall inner (install inner (install outer w)) = (w3, None) ∧
    uninstall outer w3 = (w4, None) ∧
    (∀ name, getLogger name (loggers w3) = getLogger name (loggers (install outer w))) ∧
    (∀ name, getLogger name (loggers w4) = getLogger name (loggers w)) ∧
    instances w4 = instances w ∖ {[outer; inner]}.
Proof.
  set (w1 := install outer w).
  assert (heap w1 !! inner = Some si) as Hinner1.
  { unfold w1. by rewrite install_other_objects. }
  assert (root_by_name (loggers w1) = root_by_name (loggers w)) as Hflag.
  { apply flag_install. }
  destruct (bracket inner si w1 (install inner w1) Hinner1)
    as (w3 & Hw3 & Hin3 & Hout3 & Hi3 & Hh3); [|done|].
  { by apply (distinct_loggers_flag (loggers w)). }
  assert (∀ name, getLogger name (loggers w3) = getLogger name (loggers w1)) as Hall3.
  { intros name. destruct (targeted_dec (loggers w1) (names si) name) as [Hn|Hn];
      [by apply Hin3|].
    rewrite (Hout3 name Hn). by apply (install_other_loggers inner si w1). }
  destruct (bracket outer so w w3 Houter Hdo) as (w4 & Hw4 & Hin4 & Hout4 & Hi4 & _).
  { eapply rtc_l; [by apply (body_install outer inner)|].
    apply rtc_once. replace w3 with (uninstall inner (install inner w1)).1
      by by rewrite Hw3.
    by apply body_uninstall. }
  exists w3, w4. split_and!; [done..| |].
  - intros name. destruct (targeted_dec (loggers w) (names so) name) as [Hn|Hn];
      [by apply Hin4|].
    rewrite (Hout4 name Hn), Hall3.
    by apply (install_other_loggers outer so w).
  - rewrite Hi4, Hi3.
    destruct (install_spec inner si w1 Hinner1) as (? & ? & -> & _). simpl.
    destruct (install_spec outer so w Houter) as (? & ? & Hw1 & _).
    unfold w1. rewrite Hw1. simpl. set_solver.
Qed.

Lemma nested_captures_restore_witness :
  ∃ w3 w4,
    uninstall 1 (install 1 (install 0 nested_world)) = (w3, None) ∧
    uninstall 0 w3 = (w4, None) ∧
    (∀ name, getLogger name (loggers w3)
             = getLogger name (loggers (install 0 nested_world))) ∧
    (∀ name, getLogger name (loggers w4) = getLogger name (loggers nested_world)) ∧
    instances w4 = instances nested_world ∖ {[0; 1]}.
Proof.
  apply (nested_captures_restore 0 1
           (mkLogCapture [Some "a"; Some "b"] 5 None default_attributes false no_saved [])
           (mkLogCapture [Some "a"] 1 None default_attributes false no_saved [])
           nested_world).
  - reflexivity.
  - reflexivity.
  - done.
  - unfold distinct_loggers. apply (bool_decide_unpack _). by vm_compute.
  - unfold distinct_loggers. apply (bool_decide_unpack _). by vm_compute.
Defined.

(** X8.  Two different captures of a same logger, the names of each
    standing for loggers that differ two by two, that are uninstalled in
    the order in which they were installed do not restore it: the first
    [uninstall] gives the logger its original configuration while the
    second capture is still installed, and the second [uninstall] leaves
    the logger with the level of the first capture and the first capture
    as its only handler, although that capture is no longer installed. *)
Theorem out_of_order_uninstall_leaves_handler (first second : nat)
    (sf ss : LogCapture) (w : World) (name : option string)
    (Hfirst : heap w !! first = Some sf) (Hsecond : heap w !! second = Some ss)
    (Hne : first ≠ second)
    (Hdf : distinct_loggers (loggers w) (names sf))
    (Hds : distinct_loggers (loggers w) (names ss))
    (Hnf : targeted (loggers w) (names sf) name)
    (Hns : targeted (loggers w) (names ss) name) :
  ∃ w3 w4,
    uninstall first (install second (install first w)) = (w3, None) ∧
    uninstall second w3 = (w4, None) ∧
    getLogger name (loggers w3) = getLogger name (loggers w) ∧
    getLogger name (loggers w4)
    = mkLogger (level sf) [first] false
        (default (logger_propagate (getLogger name (loggers w))) (propagate sf)) ∧
    first ∉ instances w4.
Proof.
  set (w1 := install first w).
  assert (heap w1 !! second = Some ss) as Hsecond1.
  { unfold w1. by rewrite install_other_objects. }
  assert (root_by_name (loggers w1) = root_by_name (loggers w)) as Hflag1.
  { apply flag_install. }
  destruct (bracket first sf w (install second w1) Hfirst Hdf)
    as (w3 & Hw3 & Hin3 & _ & Hi3 & Hh3).
  { apply rtc_once. by apply body_install. }
  assert (root_by_name (loggers w3) = root_by_name (loggers w)) as Hflag3.
  { replace w3 with (uninstall first (install second w1)).1 by by rewrite Hw3.
    by rewrite flag_uninstall, flag_install. }
  destruct (install_spec first sf w Hfirst) as (o1 & lg1 & Hw1 & _ & Hin1 & _).
  destruct (install_spec second ss w1 Hsecond1)
    as (o2 & lg2 & Hw2 & _ & _ & _ & Hsaved2 & _).
  destruct (uninstall_spec second (set_old o2 ss) w3) as (lg4 & Hw4 & _ & Hin4 & _).
  { rewrite Hh3, Hw2. simpl. by rewrite lookup_insert_eq. }
  { rewrite Hi3, Hw2. simpl. set_solver. }
  { simpl. intros n Hn. destruct (Hsaved2 n Hn) as (L & -> & _). by eexists. }
  exists w3. eexists. split_and!; [done | exact Hw4 | by apply Hin3 | | ].
  - simpl in *. destruct (Hin4 name) as (m & Hm & Hk & Hs).
    { by apply (targeted_flag (loggers w)). }
    destruct (Hsaved2 m Hm) as (L & HL & _ & HL').
    rewrite HL, HL' in Hs by by apply (distinct_loggers_flag (loggers w)).
    injection Hs as <-.
    rewrite (getLogger_key m name (loggers w1))
      by by rewrite !(logger_key_flag _ _ _ Hflag1), <- !(logger_key_flag _ _ _ Hflag3).
    unfold w1. rewrite Hw1. simpl. by apply Hin1.
  - simpl. rewrite Hi3. set_solver.
Qed.

Lemma out_of_order_uninstall_leaves_handler_witness :
  ∃ w3 w4,
    uninstall 0 (install 1 (install 0 nested_world)) = (w3, None) ∧
    uninstall 1 w3 = (w4, None) ∧
    getLogger (Some "a") (loggers w3) = getLogger (Some "a") (loggers nested_world) ∧
    getLogger (Some "a") (loggers w4)
    = mkLogger 5 [0] false
        (default (logger_propagate (getLogger (Some "a") (loggers nested_world))) None) ∧
    0 ∉ instances w4.
Proof.
  apply (out_of_order_uninstall_leaves_handler 0 1
           (mkLogCapture [Some "a"; Some "b"] 5 None default_attributes false no_saved [])
           (mkLogCapture [Some "a"] 1 None default_attributes false no_saved [])
           nested_world (Some "a")).
  - reflexivity.
  - reflexivity.
  - done.
  - unfold distinct_loggers. apply (bool_decide_unpack _). by vm_compute.
  - unfold distinct_loggers. apply (bool_decide_unpack _). by vm_compute.
  - unfold targeted. vm_compute. left.
  - unfold targeted. vm_compute. left.
Defined.

(** X9.  A second [install] of a capture changes no logger, nor the set
    [instances], nor the number of exit hooks: as far as the registry goes
    [install] is idempotent. *)
Theorem install_again_keeps_loggers (self : nat) (w : World) :
  (∀ name, getLogger name (loggers (install self (install self w)))
           = getLogger name (loggers (install self w))) ∧
  instances (install self (install self w)) = instances (install self w) ∧
  atexit_hooks (install self (install self w)) = atexit_hooks (install self w).
Proof.
  destruct (heap w !! self) as [s|] eqn:Hobj.
  - destruct (install_spec self s w Hobj) as (o1 & lg1 & Hw1 & Hflag1 & Hin1 & _).
    set (w1 := install self w) in *.
    assert (heap w1 !! self = Some (set_old o1 s)) as Hobj1.
    { rewrite Hw1. simpl. by rewrite lookup_insert_eq. }
    destruct (install_spec self _ w1 Hobj1) as (o2 & lg2 & -> & _ & Hin2 & Hout2 & _).
    simpl in *. split_and!.
    + intros name.
      destruct (targeted_dec (loggers w1) (names s) name) as [Hn|Hn].
      * rewrite (Hin2 name Hn). rewrite Hw1. simpl.
        rewrite Hin1; [apply capture_capture|].
        apply (targeted_flag (loggers w1)); [|done]. by rewrite Hw1.
      * by apply Hout2.
    + rewrite Hw1. simpl. set_solver.
    + rewrite Hw1. unfold class_atexit_setup. simpl.
      destruct (decide (self ∈ decorators w));
        by destruct (atexit_setup w), (decorator_atexit_setup w).
  - unfold install. by rewrite !Hobj.
Qed.

Lemma uninstall_outcome self s w :
  heap w !! self = Some s →
  (uninstall self w).2
  = (if decide (self ∈ instances w)
     then (uninstall_names (old s) (loggers w) (names s)).2 else None) ∧
  ((uninstall self w).2 ≠ None → instances (uninstall self w).1 = instances w).
Proof.
  intros Hobj. unfold uninstall, uninstall_object. rewrite Hobj.
  destruct (decide (self ∈ instances w)); [|done].
  by destruct (uninstall_names (old s) (loggers w) (names s)) as [lg [e1|]].
Qed.

(** X10.  [uninstall] raises nothing exactly when the capture is not a
    member of [instances] or an entry was saved for each of its names; the
    only exception it raises is the [KeyError] of a name of the capture
    without saved entry, and the capture then stays in [instances]. *)
Theorem uninstall_raises_for_unsaved_name (self : nat) (s : LogCapture) (w : World)
    (Hobj : heap w !! self = Some s) :
  ((uninstall self w).2 = None ↔
     self ∉ instances w ∨ ∀ n, n ∈ names s → is_Some (saved_logger (old s) n)) ∧
  (∀ e, (uninstall self w).2 = Some e →
     ∃ n, e = KeyError n ∧ n ∈ names s ∧ saved_logger (old s) n = None ∧
          self ∈ instances w ∧ instances (uninstall self w).1 = instances w).
Proof.
  destruct (uninstall_outcome self s w Hobj) as [Hout Hkeep]. split.
  - rewrite Hout. destruct (decide (self ∈ instances w)) as [Hin|Hin].
    + rewrite uninstall_names_ok_iff. split; [by right | by intros [?|?]].
    + split; [by left | done].
  - intros e He. assert (self ∈ instances w) as Hin.
    { rewrite Hout in He. by destruct (decide (self ∈ instances w)). }
    rewrite Hout in He. destruct (decide (self ∈ instances w)); [|done].
    destruct (uninstall_names_raises _ _ _ _ He) as (n & -> & Hn & Hs).
    exists n. split_and!; [done..|]. apply Hkeep. rewrite Hout.
    destruct (decide (self ∈ instances w)); [|done]. by rewrite He.
Qed.

Lemma uninstall_raises_for_unsaved_name_witness :
  ∃ n, KeyError None = KeyError n ∧ n ∈ [None] ∧ saved_logger no_saved n = None ∧
       0 ∈ instances unsaved_world ∧
       instances (uninstall 0 unsaved_world).1 = instances unsaved_world.
Proof.
  apply (proj2 (uninstall_raises_for_unsaved_name 0
                  (mkLogCapture [None] 1 None default_attributes false no_saved [])
                  unsaved_world eq_refl) (KeyError None)).
  reflexivity.
Defined.

(** X22.  In every state a process can reach, [uninstall] raises nothing
    and leaves the capture outside [instances] and the capture objects as
    they are; a second [uninstall] right after the first raises nothing and
    leaves the whole state, the loggers included, as it is; and on a
    capture that is not installed (never installed, or uninstalled
    already) [uninstall] changes nothing at all. *)
Theorem uninstall_is_idempotent (w : World) (self : nat) (Hreach : reachable w) :
  ∃ w1,
    uninstall self w = (w1, None) ∧
    uninstall self w1 = (w1, None) ∧
    (self ∉ instances w → w1 = w) ∧
    instances w1 = instances w ∖ {[self]} ∧
    heap w1 = heap w.
Proof.
  apply reachable_ready in Hreach.
  destruct (ready_uninstall self w Hreach) as (w1 & Hw1 & Hi & Hh & _).
  exists w1. split_and!; [done| | |done..].
  - apply uninstall_inactive. rewrite Hi. set_solver.
  - intros Hout. rewrite uninstall_inactive in Hw1 by done. congruence.
Qed.

Lemma uninstall_is_idempotent_witness :
  ∃ w1,
    uninstall 0 root_world = (w1, None) ∧
    uninstall 0 w1 = (w1, None) ∧
    (0 ∉ instances root_world → w1 = root_world) ∧
    instances w1 = instances root_world ∖ {[0]} ∧
    heap w1 = heap root_world.
Proof.
  apply (uninstall_is_idempotent root_world 0).
  exact root_world_reachable.
Defined.

(** ** The context manager and the decorator *)

(** X11.  A capture created with [install=True], entered as a context
    manager and left by [__exit__], whatever the block did short of
    installing or uninstalling it, leaves every logger that one of its
    names stands for (the names standing for loggers that differ two by
    two) as it was before the capture was created; [__exit__] raises
    nothing, leaves the other loggers as the block left them, removes the
    capture from [instances] and keeps the capture object, so its records
    can still be checked after the block. *)
Theorem with_block_restores (a : names_arg) (lvl : Z) (prop : option bool)
    (attrs : extraction) (rc : bool) (w w' : World)
    (Hdistinct : distinct_loggers (loggers w) (names_of a))
    (Hbody : rtc (body_step (new_LogCapture a true lvl prop attrs rc w).1)
                 (__enter__ (new_LogCapture a true lvl prop attrs rc w).1
                            (new_LogCapture a true lvl prop attrs rc w).2).2 w') :
  ∃ w2, __exit__ (new_LogCapture a true lvl prop attrs rc w).1 w' = (w2, None) ∧
        (∀ name, targeted (loggers w) (names_of a) name →
           getLogger name (loggers w2) = getLogger name (loggers w)) ∧
        (∀ name, untargeted (loggers w) (names_of a) name →
           getLogger name (loggers w2) = getLogger name (loggers w')) ∧
        instances w2 = instances w' ∖ {[(new_LogCapture a true lvl prop attrs rc w).1]} ∧
        heap w2 = heap w'.
Proof.
  unfold __exit__, __enter__, new_LogCapture, construct in *. cbn [fst snd] in *.
  set (self := fresh (dom (heap w))) in *.
  set (s := mkLogCapture (names_of a) lvl prop attrs rc no_saved []) in *.
  set (w0 := mkWorld (loggers w) (<[self := s]> (heap w)) (decorators w ∖ {[self]})
                     (instances w) (atexit_setup w) (decorator_atexit_setup w)
                     (atexit_hooks w)) in *.
  apply (bracket self s w0 w'); [|done|done].
  simpl. by rewrite lookup_insert_eq.
Qed.

Lemma with_block_restores_witness :
  ∃ w2, __exit__ 0 (emit 0 (info_record "root" "hello") root_world) = (w2, None) ∧
        getLogger None (loggers w2) = getLogger None (loggers initial_world) ∧
        heap w2 = heap (emit 0 (info_record "root" "hello") root_world).
Proof.
  destruct (with_block_restores (SingleName None) 1 None default_attributes false
              initial_world (emit 0 (info_record "root" "hello") root_world))
    as (w2 & Hw2 & Hin & _ & _ & Hheap).
  - unfold distinct_loggers. apply (bool_decide_unpack _). by vm_compute.
  - apply rtc_once. apply (body_emit 0 0 (info_record "root" "hello") root_world).
  - exists w2. split_and!; [exact Hw2 | | exact Hheap].
    apply (Hin None). unfold targeted. vm_compute. left.
Defined.

Lemma decorated_call (self : nat) (s : LogCapture) (w : World)
    (rs : list LogRecord)
    (Hobj : heap w !! self = Some s)
    (Hdistinct : distinct_loggers (loggers w) (names s)) :
  ∃ s1 w2 s2,
    (LogCaptureForDecorator.install self w).1 = self ∧
    heap (LogCaptureForDecorator.install self w).2 !! self = Some s1 ∧
    records s1 = [] ∧
    uninstall self (emit_all self rs (LogCaptureForDecorator.install self w).2)
    = (w2, None) ∧
    heap w2 !! self = Some s2 ∧
    records s2 = rs ∧
    actual s2 = project (attributes s) <$> rs ∧
    (∀ name, getLogger name (loggers w2) = getLogger name (loggers w)).
Proof.
  unfold LogCaptureForDecorator.install. cbn [fst snd].
  destruct (install_spec self s w Hobj) as (o1 & lg1 & Hw1 & _ & _ & Hout1 & _).
  set (w1 := clear self (install self w)).
  assert (heap w1 !! self = Some (set_records [] (set_old o1 s))) as Hobj1.
  { unfold w1. simpl. rewrite Hw1. simpl. by rewrite lookup_alter_eq, lookup_insert_eq. }
  destruct (emit_all_object self rs w1 _ Hobj1) as (Hobj2 & _ & Hlg2 & _).
  destruct (bracket self s w (emit_all self rs w1) Hobj Hdistinct)
    as (w2 & Hw2 & Hin & Hout & _ & Hheap).
  { eapply rtc_l; [apply (body_clear self self)|]. apply body_emit_all. }
  eexists _, w2, _. split_and!; [done | exact Hobj1 | done | exact Hw2 | | | | ].
  - rewrite Hheap. exact Hobj2.
  - done.
  - by rewrite actual_set_records.
  - intros name. destruct (targeted_dec (loggers w) (names s) name) as [Hn|Hn];
      [by apply Hin|].
    rewrite (Hout name Hn), Hlg2. unfold w1. simpl.
    rewrite Hw1. simpl. by apply Hout1.
Qed.

(** X12.  [LogCaptureForDecorator.install] returns the capture itself and
    leaves its buffer empty whatever it held; after the records [rs] are
    emitted and the capture is uninstalled, its buffer holds exactly [rs],
    [actual] is their rows, and every logger is as it was before the call
    (the names of the capture standing for loggers that differ two by
    two). *)
Theorem decorated_call_sees_its_own_records (self : nat) (s : LogCapture) (w : World)
    (rs : list LogRecord)
    (Hobj : heap w !! self = Some s)
    (Hdistinct : distinct_loggers (loggers w) (names s)) :
  ∃ s1 w2 s2,
    (LogCaptureForDecorator.install self w).1 = self ∧
    heap (LogCaptureForDecorator.install self w).2 !! self = Some s1 ∧
    records s1 = [] ∧
    uninstall self (emit_all self rs (LogCaptureForDecorator.install self w).2)
    = (w2, None) ∧
    heap w2 !! self = Some s2 ∧
    records s2 = rs ∧
    actual s2 = project (attributes s) <$> rs ∧
    (∀ name, getLogger name (loggers w2) = getLogger name (loggers w)).
Proof. by apply decorated_call. Qed.

Lemma decorated_call_sees_its_own_records_witness :
  ∃ s1 w2 s2,
    (LogCaptureForDecorator.install 0 two_names_world).1 = 0 ∧
    heap (LogCaptureForDecorator.install 0 two_names_world).2 !! 0 = Some s1 ∧
    records s1 = [] ∧
    uninstall 0 (emit_all 0 [info_record "a" "hello"]
                   (LogCaptureForDecorator.install 0 two_names_world).2)
    = (w2, None) ∧
    heap w2 !! 0 = Some s2 ∧
    records s2 = [info_record "a" "hello"] ∧
    actual s2 = project default_attributes <$> [info_record "a" "hello"] ∧
    (∀ name, getLogger name (loggers w2) = getLogger name (loggers two_names_world)).
Proof.
  apply (decorated_call_sees_its_own_records 0
           (mkLogCapture [Some "a"; Some "b"] 1 (Some false) default_attributes false
                         no_saved [])
           two_names_world [info_record "a" "hello"]).
  - reflexivity.
  - unfold distinct_loggers. apply (bool_decide_unpack _). by vm_compute.
Defined.

(** X13.  The object that [log_capture] builds captures the root logger
    when no name is given and the given names otherwise, is an object of
    the class [LogCaptureForDecorator] and is not installed on creation;
    one decorated call (install, the records [rs] emitted, uninstall)
    raises nothing, leaves [actual] as the rows of [rs] and every logger as
    it was (the given names standing for loggers that differ two by
    two). *)
Theorem log_capture_call (ns : list (option string)) (lvl : Z) (prop : option bool)
    (attrs : extraction) (rc : bool) (w : World) (rs : list LogRecord)
    (Hdistinct : distinct_loggers (loggers w) ns) :
  let created := log_capture ns lvl prop attrs rc w in
  ∃ s0 w2 s2,
    heap created.2 !! created.1 = Some s0 ∧
    names s0 = (if decide (ns = []) then [None] else ns) ∧
    created.1 ∈ decorators created.2 ∧
    instances created.2 = instances w ∧
    uninstall created.1
      (emit_all created.1 rs (LogCaptureForDecorator.install created.1 created.2).2)
    = (w2, None) ∧
    heap w2 !! created.1 = Some s2 ∧
    actual s2 = project attrs <$> rs ∧
    (∀ name, getLogger name (loggers w2) = getLogger name (loggers w)).
Proof.
  intros created.
  set (a := if decide (ns = []) then SingleName None else NameTuple ns).
  set (s0 := mkLogCapture (names_of a) lvl prop attrs rc no_saved []).
  assert (heap created.2 !! created.1 = Some s0) as Hobj.
  { unfold created, log_capture, construct. cbn [fst snd]. simpl.
    by rewrite lookup_insert_eq. }
  assert (names s0 = if decide (ns = []) then [None] else ns) as Hnames.
  { unfold s0, a. simpl. by destruct (decide (ns = [])). }
  destruct (decorated_call created.1 s0 created.2 rs Hobj)
    as (s1 & w2 & s2 & _ & _ & _ & Hw2 & Hs2 & _ & Hactual & Hlog).
  { rewrite Hnames. destruct (decide (ns = [])); [|done].
    apply NoDup_singleton. }
  exists s0, w2, s2. split_and!; [done..| |done|done|done|done|done].
  unfold created, log_capture, construct. cbn [fst snd]. simpl. set_solver.
Qed.

Lemma log_capture_call_witness :
  let created := log_capture [] 1 None default_attributes false initial_world in
  ∃ s0 w2 s2,
    heap created.2 !! created.1 = Some s0 ∧
    names s0 = (if decide (([] : list (option string)) = []) then [None] else []) ∧
    created.1 ∈ decorators created.2 ∧
    instances created.2 = instances initial_world ∧
    uninstall created.1
      (emit_all created.1 [info_record "root" "hello"]
         (LogCaptureForDecorator.install created.1 created.2).2)
    = (w2, None) ∧
    heap w2 !! created.1 = Some s2 ∧
    actual s2 = project default_attributes <$> [info_record "root" "hello"] ∧
    (∀ name, getLogger name (loggers w2) = getLogger name (loggers initial_world)).
Proof.
  apply (log_capture_call [] 1 None default_attributes false initial_world
           [info_record "root" "hello"]).
  apply NoDup_nil_2.
Defined.

(** ** The exit hook *)

Lemma two_classes_reachable :
  reachable (install 1 (install 0 two_classes_world)).
Proof.
  left. eapply rtc_l; [apply (step_log_capture [Some "a"] 1 None default_attributes false)|].
  eapply rtc_l; [apply (step_new (SingleName (Some "b")) false 1 None default_attributes
                                 false)|].
  eapply rtc_l; [apply (step_install 0); by eexists|].
  apply rtc_once. apply (step_install 1). by eexists.
Qed.

(** X14.  The exit hook is registered once for each class that shows a
    flag [atexit_setup] of its own, so at most twice: in every state a
    process can reach the number of registrations is the number of flags
    set, it is at least one as soon as a capture is installed, and
    [install] registers the hook exactly when the class of the capture
    does not show the flag, in its own attribute or, for
    [LogCaptureForDecorator] without one, in that of [LogCapture].  When
    the capture of a decorator is installed before a plain capture the
    hook is registered twice, and once when the plain capture comes
    first. *)
Theorem exit_hook_registered_per_class (w : World) (Hreach : reachable w) :
  atexit_hooks w = Nat.b2n (atexit_setup w) + Nat.b2n (decorator_atexit_setup w) ∧
  atexit_hooks w ≤ 2 ∧
  (instances w ≠ ∅ → 1 ≤ atexit_hooks w) ∧
  (∀ self, is_Some (heap w !! self) →
     atexit_hooks (install self w)
     = (if class_atexit_setup self w then atexit_hooks w else S (atexit_hooks w)) ∧
     class_atexit_setup self (install self w) = true) ∧
  atexit_hooks (install 1 (install 0 two_classes_world)) = 2 ∧
  atexit_hooks (install 0 (install 1 two_classes_world)) = 1.
Proof.
  destruct (reachable_hooked w Hreach) as [Hh Hs].
  split_and!; [done| | | |by vm_compute|by vm_compute].
  - rewrite Hh. destruct (atexit_setup w), (decorator_atexit_setup w); simpl; lia.
  - intros Hne. rewrite Hh. specialize (Hs Hne).
    destruct (atexit_setup w), (decorator_atexit_setup w); simpl in *; try done; lia.
  - intros self [s Hobj]. destruct (install_spec self s w Hobj) as (? & ? & -> & _).
    unfold class_atexit_setup. simpl. split; [done|].
    destruct (decide (self ∈ decorators w));
      by destruct (atexit_setup w), (decorator_atexit_setup w).
Qed.

Lemma exit_hook_registered_per_class_witness :
  atexit_hooks (install 1 (install 0 two_classes_world))
  = Nat.b2n (atexit_setup (install 1 (install 0 two_classes_world)))
    + Nat.b2n (decorator_atexit_setup (install 1 (install 0 two_classes_world))) ∧
  atexit_hooks (install 1 (install 0 two_classes_world)) ≤ 2.
Proof.
  pose proof (exit_hook_registered_per_class _ two_classes_reachable) as (H1 & H2 & _).
  exact (conj H1 H2).
Defined.

(** X15.  In every state a process can reach, [atexit] warns exactly when
    [instances] is not empty; after [uninstall_all] it stays silent; and
    when a capture is installed while no other is, the warning is the
    heading line followed by the names of that capture. *)
Theorem atexit_warns_of_installed (str_names : list (option string) → string)
    (w : World) (Hreach : reachable w) :
  (atexit str_names w = None ↔ instances w = ∅) ∧
  (∃ w', uninstall_all w = (w', None) ∧ atexit str_names w' = None) ∧
  (∀ self s, heap w !! self = Some s → instances w = ∅ →
     atexit str_names (install self w)
     = Some (String.concat ""
               ["LogCapture instances not uninstalled by shutdown, loggers captured:";
                newline; str_names (names s)])).
Proof.
  apply reachable_ready in Hreach. split_and!.
  - unfold atexit. by destruct (decide (instances w = ∅)).
  - destruct (ready_uninstall_each (elements (instances w)) w Hreach)
      as (w' & Hw' & Hi & _).
    exists w'. split; [done|]. unfold atexit.
    destruct (decide (instances w' = ∅)) as [|Hne]; [done|]. destruct Hne.
    rewrite Hi. apply set_eq. intros i.
    rewrite elem_of_difference, elem_of_list_to_set, elem_of_elements. set_solver.
  - intros self s Hobj Hempty.
    destruct (install_spec self s w Hobj) as (o' & lg' & -> & _).
    unfold atexit. simpl. rewrite Hempty, union_empty_r_L.
    destruct (decide ({[self]} = (∅ : gset nat))) as [E|_]; [set_solver|].
    rewrite elements_singleton. simpl. by rewrite lookup_insert_eq.
Qed.

(** ** Rendering *)

Lemma format_row_ok str r :
  format_row str r ≠ TypeError ↔ ∃ a b c, r = VTuple [a; b; c].
Proof.
  split.
  - destruct r as [| | | |items|]; try done.
    destruct items as [|a [|b [|c [|d rest]]]]; try done. intros _. by exists a, b, c.
  - by intros (a & b & c & ->).
Qed.

Lemma format_rows_ok str rows :
  is_Some (format_rows str rows) ↔ ∀ row, row ∈ rows → ∃ a b c, row = VTuple [a; b; c].
Proof.
  induction rows as [|r rows IH]; simpl.
  - split; [by intros _ row Hr%elem_of_nil | by eexists].
  - pose proof (format_row_ok str r) as Hr.
    destruct (format_row str r) as [line|].
    + rewrite fmap_is_Some, IH. split.
      * intros H row [->|Hin]%elem_of_cons; [by apply Hr | by apply H].
      * intros H row Hin. apply H. by right.
    + split; [by intros [? ?]|]. intros H. exfalso.
      destruct (proj2 Hr); [|done]. apply H. by left.
Qed.

(** X16.  [__str__] is the fixed text when nothing was captured.
    Otherwise it yields a text exactly when every row is a tuple of three
    values and raises [TypeError] when one is not: three selectors always
    give a text, and no, two, four or more selectors never do once a
    record was captured.  A single row of three values is rendered as the
    first two separated by a space, a line feed, two spaces and the
    third. *)
Theorem str_needs_three_values (str : value → string) (self : LogCapture) :
  (records self = [] → __str__ str self = Text "No logging captured") ∧
  (records self ≠ [] →
     (__str__ str self ≠ TypeError
      ↔ ∀ row, row ∈ actual self → ∃ a b c, row = VTuple [a; b; c])) ∧
  (∀ selectors, attributes self = AttrNames selectors → length selectors = 3 →
     __str__ str self ≠ TypeError) ∧
  (∀ selectors, attributes self = AttrNames selectors →
     length selectors ≠ 1 → length selectors ≠ 3 → records self ≠ [] →
     __str__ str self = TypeError) ∧
  (∀ r a b c, records self = [r] → actual self = [VTuple [a; b; c]] →
     __str__ str self
     = Text (String.concat "" [str a; " "; str b; newline; "  "; str c])).
Proof.
  assert (records self ≠ [] →
     (__str__ str self ≠ TypeError
      ↔ ∀ row, row ∈ actual self → ∃ a b c, row = VTuple [a; b; c])) as Hiff.
  { intros Hne. unfold __str__. destruct (decide (records self = [])); [done|].
    rewrite <- (format_rows_ok str).
    destruct (format_rows str (actual self)) as [lines|]; split.
    - intros _. by eexists.
    - done.
    - intros H. by destruct H.
    - by intros [? ?]. }
  assert (∀ selectors, attributes self = AttrNames selectors → length selectors ≠ 1 →
            actual self = (λ r, VTuple (selected r <$> selectors)) <$> records self)
    as Htuples.
  { intros selectors Hattrs Hlen. rewrite actual_project, Hattrs.
    apply list_fmap_ext. intros _ r _. unfold project. rewrite actual_row_selected.
    destruct (decide (length (selected r <$> selectors) = 1)) as [E|_]; [|done].
    by rewrite length_fmap in E. }
  split_and!.
  - intros E. unfold __str__. by destruct (decide (records self = [])).
  - done.
  - intros selectors Hattrs Hlen.
    destruct (decide (records self = [])) as [E|Hne].
    + unfold __str__. by destruct (decide (records self = [])).
    + apply Hiff; [done|]. rewrite (Htuples selectors Hattrs) by lia.
      intros row (r & -> & _)%list_elem_of_fmap.
      destruct selectors as [|x [|y [|z [|? ?]]]]; try done. by eexists _, _, _.
  - intros selectors Hattrs H1 H3 Hne.
    assert (¬ (__str__ str self ≠ TypeError)) as Hnot.
    { rewrite (Hiff Hne), (Htuples selectors Hattrs H1). intros Hok.
      destruct (records self) as [|r rs]; [done|].
      destruct (Hok (VTuple (selected r <$> selectors)))
        as (a & b & c & [= Hs]); [by left|].
      apply (f_equal length) in Hs. rewrite length_fmap in Hs. simpl in Hs. lia. }
    destruct (__str__ str self); [by destruct Hnot | done].
  - intros r a b c Hr Ha. unfold __str__. rewrite Hr, Ha.
    destruct (decide ([r] = [])); [done|]. reflexivity.
Qed.

(** ** How the checks relate *)

Lemma check_present_returns_iff self expected kw :
  check_present self expected kw = Returns tt
  ↔ delete "order_matters" kw = ∅ ∧
    if truthy (default (VBool true) (kw !! "order_matters"))
    then occurs_in_order expected (actual self)
    else ∀ x, count_eq x expected ≤ count_eq x (actual self).
Proof.
  unfold check_present.
  destruct (decide (delete "order_matters" kw = ∅)) as [E|E].
  - destruct (truthy (default (VBool true) (kw !! "order_matters"))).
    + rewrite ordered_returns_iff. naive_solver.
    + rewrite unordered_returns_iff. naive_solver.
  - naive_solver.
Qed.

Lemma occurs_counts expected actual :
  occurs_in_order expected actual → ∀ x, count_eq x expected ≤ count_eq x actual.
Proof.
  intros (found & Hsub & Hall) x.
  rewrite <- (count_eq_Forall2 x _ _ Hall). by apply count_eq_sublist.
Qed.

Lemma occurs_sublist expected actual actual' :
  actual `sublist_of` actual' → occurs_in_order expected actual →
  occurs_in_order expected actual'.
Proof.
  intros Hsub (found & Hfound & Hall). exists found. split; [by etrans | done].
Qed.

(** X17.  With no keyword other than [order_matters], whatever its value,
    [check_present] returns whenever [check] returns on the same expected
    rows, and whenever the order-sensitive [check_present] does. *)
Theorem check_implies_check_present (self : LogCapture) (expected : list value)
    (kw : gmap string value) (Hkw : delete "order_matters" kw = ∅) :
  (check self expected = Returns tt → check_present self expected kw = Returns tt) ∧
  (check_present self expected ∅ = Returns tt →
   check_present self expected kw = Returns tt).
Proof.
  rewrite check_returns_iff, !check_present_returns_iff, lookup_empty. simpl.
  assert (occurs_in_order expected (actual self) →
          if truthy (default (VBool true) (kw !! "order_matters"))
          then occurs_in_order expected (actual self)
          else ∀ x, count_eq x expected ≤ count_eq x (actual self)) as Hboth.
  { intros Hocc. destruct (truthy _); [done | by apply occurs_counts]. }
  split.
  - intros Heq%rows_eq_Forall2. split; [done|]. apply Hboth.
    exists (actual self). split; [done | by apply Forall2_py_eq_sym].
  - intros [_ Hs]. split; [done|]. by apply Hboth.
Qed.

Lemma check_implies_check_present_witness :
  check_present abcd_capture [A; C] {[ "order_matters" := VNone ]} = Returns tt.
Proof.
  apply (proj2 (check_implies_check_present abcd_capture [A; C]
                  {[ "order_matters" := VNone ]} ltac:(by vm_compute))).
  by vm_compute.
Defined.

(** X18.  A [check_present] that returns keeps returning, with the same
    arguments, when further records are found in the buffer, wherever
    they stand among the records already there. *)
Theorem check_present_survives_more_records (self : LogCapture)
    (expected : list value) (kw : gmap string value) (rs : list LogRecord)
    (Hmore : records self `sublist_of` rs)
    (Hpass : check_present self expected kw = Returns tt) :
  check_present (set_records rs self) expected kw = Returns tt.
Proof.
  revert Hpass. rewrite !check_present_returns_iff. intros [Hkw Hs]. split; [done|].
  assert (actual self `sublist_of` actual (set_records rs self)) as Hsub.
  { rewrite actual_set_records, actual_project. by apply fmap_sublist. }
  destruct (truthy (default (VBool true) (kw !! "order_matters"))).
  - by eapply occurs_sublist.
  - intros x. etrans; [apply Hs|]. by apply count_eq_sublist.
Qed.

Lemma check_present_survives_more_records_witness :
  check_present
    (set_records (info_record "root" "Z" :: records abcd_capture
                    ++ [info_record "root" "E"]) abcd_capture)
    [A; C] ∅ = Returns tt.
Proof.
  apply (check_present_survives_more_records abcd_capture [A; C] ∅).
  - apply sublist_cons, sublist_inserts_r. reflexivity.
  - by vm_compute.
Defined.

(** X19.  A [check] that returns raises the comparison error as soon as
    one more record is emitted, the expected rows being compared with the
    rows captured before followed by the rows of the new records. *)
Theorem check_fails_after_more_records (self : LogCapture) (expected : list value)
    (more : list LogRecord)
    (Hpass : check self expected = Returns tt) (Hmore : more ≠ []) :
  check (set_records (records self ++ more) self) expected
  = Raises (MismatchError expected
              (actual self ++ (project (attributes self) <$> more))
              (recursive_check self)).
Proof.
  apply check_returns_iff, rows_eq_lookup in Hpass as [Hlen _]. unfold check.
  rewrite actual_set_records, fmap_app, <- actual_project. simpl.
  apply compare_differs. apply not_true_is_false.
  intros [E _]%rows_eq_lookup.
  rewrite length_app, length_fmap in E. destruct more; [done|]. simpl in E. lia.
Qed.

Lemma check_fails_after_more_records_witness :
  check (set_records (records flag_capture ++ [ {[ "flag" := VBool false ]} ])
                     flag_capture)
        [VInt 1]
  = Raises (MismatchError [VInt 1] [VBool true; VBool false] false).
Proof.
  etrans.
  - apply (check_fails_after_more_records flag_capture [VInt 1]
             [ {[ "flag" := VBool false ]} ]); [by vm_compute | done].
  - by vm_compute.
Defined.

(** X20.  With a false [order_matters] the outcome depends neither on the
    order of the expected rows nor on the order of the buffered records:
    [check_present] returns for a permutation of the ones against a
    permutation of the others exactly when it returns for the
    originals. *)
Theorem unordered_check_ignores_order (self : LogCapture)
    (expected expected' : list value) (rs : list LogRecord) (flag : value)
    (Hflag : truthy flag = false)
    (Hexpected : expected ≡ₚ expected') (Hrecords : records self ≡ₚ rs) :
  check_present self expected {[ "order_matters" := flag ]} = Returns tt
  ↔ check_present (set_records rs self) expected' {[ "order_matters" := flag ]}
    = Returns tt.
Proof.
  rewrite !check_present_returns_iff, lookup_singleton_eq. simpl. rewrite Hflag.
  rewrite actual_set_records, actual_project.
  assert (project (attributes self) <$> records self
          ≡ₚ project (attributes self) <$> rs) as Hrows by by rewrite Hrecords.
  split; intros [Hkw H]; (split; [done|]); intros x; specialize (H x).
  - by rewrite <- (count_eq_Permutation x _ _ Hexpected),
      <- (count_eq_Permutation x _ _ Hrows).
  - by rewrite (count_eq_Permutation x _ _ Hexpected),
      (count_eq_Permutation x _ _ Hrows).
Qed.

Lemma unordered_check_ignores_order_witness :
  check_present abcd_capture [C; A] {[ "order_matters" := VBool false ]} = Returns tt
  ↔ check_present
      (set_records [info_record "root" "D"; info_record "root" "C";
                    info_record "root" "B"; info_record "root" "A"] abcd_capture)
      [A; C] {[ "order_matters" := VBool false ]} = Returns tt.
Proof.
  apply (unordered_check_ignores_order abcd_capture [C; A] [A; C]
           [info_record "root" "D"; info_record "root" "C";
            info_record "root" "B"; info_record "root" "A"] (VBool false)).
  - reflexivity.
  - apply perm_swap.
  - apply (Permutation_rev
             [info_record "root" "A"; info_record "root" "B";
              info_record "root" "C"; info_record "root" "D"]).
Defined.

(** X21.  With no expected row, [check_present] returns in both modes
    whatever was captured, while [check] returns exactly when nothing was
    captured. *)
Theorem nothing_expected (self : LogCapture) (kw : gmap string value)
    (Hkw : delete "order_matters" kw = ∅) :
  check_present self [] kw = Returns tt ∧
  (check self [] = Returns tt ↔ records self = []).
Proof.
  rewrite check_present_returns_iff, check_returns_iff, actual_project. split_and!.
  - done.
  - destruct (truthy _); [apply occurs_nil | intros x; simpl; lia].
  - destruct (records self); simpl; split; done.
Qed.

Lemma nothing_expected_witness :
  check_present abcd_capture [] {[ "order_matters" := VInt 0 ]} = Returns tt ∧
  (check abcd_capture [] = Returns tt ↔ records abcd_capture = []).
Proof.
  apply (nothing_expected abcd_capture {[ "order_matters" := VInt 0 ]}).
  by vm_compute.
Defined.

Lemma install_uninstall_keep_records_witness :
  heap (uninstall 0 root_world).1 = heap root_world ∧
  dom (heap (install 0 root_world)) = dom (heap root_world).
Proof.
  exact (conj (proj1 (install_uninstall_keep_records 0 root_world))
              (proj1 (proj2 (install_uninstall_keep_records 0 root_world)))).
Defined.

Lemma atexit_warns_of_installed_witness :
  ∃ w', uninstall_all root_world = (w', None) ∧
        atexit (λ _, "(None,)") w' = None.
Proof.
  exact (proj1 (proj2 (atexit_warns_of_installed (λ _, "(None,)") root_world
                         root_world_reachable))).
Defined.

Lemma str_needs_three_values_witness :
  __str__ (λ v, match v with VStr s => s | _ => "" end) empty_capture
  = Text "No logging captured" ∧
  __str__ (λ v, match v with VStr s => s | _ => "" end)
    (mkLogCapture [None] 1 None (AttrNames ["name"; "msg"]) false no_saved
                  [info_record "root" "hello"])
  = TypeError ∧
  __str__ (λ v, match v with VStr s => s | _ => "" end) hello_capture
  = Text (String.concat "" ["root"; " "; "INFO"; newline; "  "; "hello"]).
Proof.
  split_and!.
  - apply (proj1 (str_needs_three_values _ empty_capture)). reflexivity.
  - apply (proj1 (proj2 (proj2 (proj2
             (str_needs_three_values
                (λ v, match v with VStr s => s | _ => "" end)
                (mkLogCapture [None] 1 None (AttrNames ["name"; "msg"]) false no_saved
                              [info_record "root" "hello"])))))
             ["name"; "msg"]); [reflexivity | simpl; lia | simpl; lia | done].
  - apply (proj2 (proj2 (proj2 (proj2
             (str_needs_three_values
                (λ v, match v with VStr s => s | _ => "" end) hello_capture))))
             (info_record "root" "hello") (VStr "root") (VStr "INFO") (VStr "hello"));
      reflexivity.
Defined.
